(** * dsl2-calculator: the expression tree, its evaluator and its printer

    A shallow embedding of [src/expr.hpp].  The C++ template hierarchy
    ([constant_t], [variable_t], [unary_t<T>], [binary_t<First, Second>],
    [assign_t<Second>]) becomes one inductive type; [eval_visitor_t] becomes
    a function in a small state-and-exception monad over [state_t];
    [print_visitor] becomes a function threading the contents of the output
    stream.  [double] is IEEE binary64, modelled by Rocq's primitive floats. *)

From Stdlib Require Import Floats.
From stdpp Require Import base option list strings pretty.

Local Open Scope string_scope.
Local Open Scope list_scope.

(** ** Data model *)

(** [using state_t = std::vector<double>]. *)
Abbreviation state_t := (list float).

(** [enum class operation_t]: the enumerators live in their own name space. *)
Module operation_t.
Inductive t : Set := assign | plus | minus | mul | div.
End operation_t.

(** [struct variable_t]: a handle on one slot of the state. *)
Record variable_t : Set := mk_variable_t { m_id : nat }.

(** The closed set of node shapes.  The constructors of [unary_t],
    [binary_t] and [assign_t] take any [operation_t] tag, as in the source;
    the target of an [assign_t] is a [variable_t], never an arbitrary node. *)
Inductive node : Set :=
| constant_t (m_value : float)
| variable_node (v : variable_t)
| unary_t (m_operation : operation_t.t) (m_value : node)
| binary_t (m_operation : operation_t.t) (m_first m_second : node)
| assign_t (m_operation : operation_t.t) (m_first : variable_t) (m_second : node).

(** [struct symbol_table_t]: two vectors, grown together by [variable]. *)
Record symbol_table_t : Set := mk_symbol_table_t {
  m_names : list string;
  m_state : state_t
}.

(** The default-constructed table. *)
Definition empty_table : symbol_table_t :=
  {| m_names := []; m_state := [] |}.

(** [symbol_table_t::variable]: the id is the size of [m_state] before the
    two [push_back]s; the updated table is returned next to the handle. *)
Definition variable (t : symbol_table_t) (name : string) (init : float)
  : variable_t * symbol_table_t :=
  let id := length (m_state t) in
  (mk_variable_t id,
   {| m_names := m_names t ++ [name]; m_state := m_state t ++ [init] |}).

(** [symbol_table_t::name]: [m_names[id]].  Indexing a vector out of range
    has no defined behaviour in C++; [None] stands for that case. *)
Definition name (t : symbol_table_t) (id : nat) : option string :=
  m_names t !! id.

(** ** Outcomes of an evaluation *)

(** The only exception the evaluator throws is
    [std::logic_error{"division by zero"}]. *)
Inductive exception : Set := logic_error (what : string).

Definition division_by_zero : exception := logic_error "division by zero".

(** The two ways the evaluator can leave defined behaviour: a [switch] on
    the tag with no matching [case] falls off the end of a function that
    must return a [double]; a vector is indexed out of range. *)
Inductive undefined_behaviour : Set := no_return_value | index_out_of_range.

(** An evaluation returns a value, or throws, both with the state as it is
    at that moment (the state is mutated in place through a reference and
    there is no rollback), or it has no defined behaviour at all. *)
Inductive outcome (A : Type) : Type :=
| Returns (a : A) (st : state_t)
| Throws (e : exception) (st : state_t)
| Undefined (u : undefined_behaviour).
Arguments Returns {A} a st.
Arguments Throws {A} e st.
Arguments Undefined {A} u.

Definition eval (A : Type) : Type := state_t -> outcome A.

Definition ret {A} (a : A) : eval A := fun st => Returns a st.

Definition bind {A B} (m : eval A) (k : A -> eval B) : eval B :=
  fun st =>
    match m st with
    | Returns a st' => k a st'
    | Throws e st' => Throws e st'
    | Undefined u => Undefined u
    end.

Definition throw {A} (e : exception) : eval A := fun st => Throws e st.

Definition undefined {A} (u : undefined_behaviour) : eval A :=
  fun _ => Undefined u.

(** Reading [m_state[id]]. *)
Definition load (id : nat) : eval float :=
  fun st =>
    match st !! id with
    | Some x => Returns x st
    | None => Undefined index_out_of_range
    end.

(** Writing through the reference [m_state[id]]. *)
Definition store (id : nat) (x : float) : eval unit :=
  fun st =>
    if decide (id < length st) then Returns tt (<[id := x]> st)
    else Undefined index_out_of_range.

Declare Scope eval_scope.
Delimit Scope eval_scope with eval.
Notation "x <- m ;; k" := (bind m (fun x => k))
  (at level 100, m at next level, right associativity) : eval_scope.
Notation "m ;;; k" := (bind m (fun _ => k))
  (at level 100, right associativity) : eval_scope.
Local Open Scope eval_scope.

(** The state an outcome leaves behind, when there is one. *)
Definition final_state {A} (o : outcome A) : option state_t :=
  match o with
  | Returns _ st | Throws _ st => Some st
  | Undefined _ => None
  end.

(** ** The evaluator, [eval_visitor_t] *)

(** [second == 0] on doubles: IEEE equality, so both zeros compare equal to
    [0] and a NaN does not. *)
Definition is_zero (x : float) : bool := PrimFloat.eqb x 0%float.

(** In [visit(node.m_first) + visit(node.m_second)] (and [-], [*]) the two
    calls are not sequenced by the language; the compiler picks the order. *)
Inductive operand_order : Set := left_to_right | right_to_left.

Definition operands {A B} (ord : operand_order) (l : eval A) (r : eval B)
  : eval (A * B) :=
  match ord with
  | left_to_right => (a <- l ;; b <- r ;; ret (a, b))
  | right_to_left => (b <- r ;; a <- l ;; ret (a, b))
  end.

(** The compound update of [visit(assign_t)]: [variable = value],
    [variable += value], and so on. *)
Definition updated (op : operation_t.t) (variable value : float) : float :=
  match op with
  | operation_t.assign => value
  | operation_t.plus => PrimFloat.add variable value
  | operation_t.minus => PrimFloat.sub variable value
  | operation_t.mul => PrimFloat.mul variable value
  | operation_t.div => PrimFloat.div variable value
  end.

Fixpoint visit (ord : operand_order) (n : node) : eval float :=
  match n with
  | constant_t m_value => ret m_value
  | variable_node v => load (m_id v)
  | unary_t op x =>
      match op with
      | operation_t.plus => visit ord x
      | operation_t.minus => (a <- visit ord x ;; ret (PrimFloat.opp a))
      | _ => undefined no_return_value
      end
  | binary_t op l r =>
      match op with
      | operation_t.plus =>
          (p <- operands ord (visit ord l) (visit ord r) ;;
           ret (PrimFloat.add (fst p) (snd p)))
      | operation_t.minus =>
          (p <- operands ord (visit ord l) (visit ord r) ;;
           ret (PrimFloat.sub (fst p) (snd p)))
      | operation_t.mul =>
          (p <- operands ord (visit ord l) (visit ord r) ;;
           ret (PrimFloat.mul (fst p) (snd p)))
      | operation_t.div =>
          (second <- visit ord r ;;
           if is_zero second then throw division_by_zero
           else (first <- visit ord l ;; ret (PrimFloat.div first second)))
      | operation_t.assign => undefined no_return_value
      end
  | assign_t op x e =>
      (value <- visit ord e ;;
       variable <- load (m_id x) ;;
       store (m_id x) (updated op variable value) ;;;
       ret (updated op variable value))
  end.

(** [node_t<T>::operator()]: run the visitor on the caller's state. *)
Definition evaluate (ord : operand_order) (n : node) (state : state_t)
  : outcome float :=
  visit ord n state.

(** ** The printer, [print_visitor] *)

Section Printer.

(** [std::ostream::operator<<(double)] is the standard library's: the text
    it inserts for a [double] is a parameter of the printer. *)
Variable format_double : float -> string.

(** What [visit(binary_t)] inserts between the operands; a tag without a
    [case] inserts nothing. *)
Definition binary_symbol (op : operation_t.t) : string :=
  match op with
  | operation_t.plus => "+"
  | operation_t.minus => "-"
  | operation_t.mul => "*"
  | operation_t.div => "/"
  | operation_t.assign => ""
  end.

(** What [visit(unary_t)] inserts before the operand. *)
Definition unary_symbol (op : operation_t.t) : string :=
  match op with
  | operation_t.minus => "-"
  | _ => ""
  end.

(** What [visit(assign_t)] inserts between the target and the value. *)
Definition assign_symbol (op : operation_t.t) : string :=
  match op with
  | operation_t.assign => "<<="
  | operation_t.plus => "+="
  | operation_t.minus => "-="
  | operation_t.mul => "*="
  | operation_t.div => "/="
  end.

(** [visit(variable_t)]: [m_out << m_symbol_table.name(node.m_id)]. *)
Definition print_variable (m_symbol_table : symbol_table_t) (v : variable_t)
    (m_out : string) : option string :=
  s ← name m_symbol_table (m_id v); Some (m_out +:+ s).

(** The visitor threads the characters written to [m_out] so far. *)
Fixpoint print_visit (m_symbol_table : symbol_table_t) (n : node)
    (m_out : string) : option string :=
  match n with
  | constant_t m_value => Some (m_out +:+ format_double m_value)
  | variable_node v => print_variable m_symbol_table v m_out
  | unary_t op x => print_visit m_symbol_table x (m_out +:+ unary_symbol op)
  | binary_t op l r =>
      out ← print_visit m_symbol_table l m_out;
      print_visit m_symbol_table r (out +:+ binary_symbol op)
  | assign_t op x e =>
      out ← print_variable m_symbol_table x m_out;
      print_visit m_symbol_table e (out +:+ assign_symbol op)
  end.

(** [out << printer{symbol_table, node}] on an empty stream. *)
Definition printer (symbol_table : symbol_table_t) (n : node)
  : option string :=
  print_visit symbol_table n "".

End Printer.

(** The stream's default formatting on the doubles that are whole numbers
    of fewer than seven digits: the digits alone, after a minus sign for a
    negative one.  Other doubles are outside this formatter's domain. *)
Definition whole_number (x : float) : option Z :=
  match Prim2SF x with
  | S754_zero _ => Some 0%Z
  | S754_finite s m e =>
      let magnitude :=
        match e with
        | Z0 => Some (Z.pos m)
        | Zpos k => Some (Z.pos m * 2 ^ Z.pos k)%Z
        | Zneg k =>
            if (Z.pos m mod 2 ^ Z.pos k =? 0)%Z
            then Some (Z.pos m / 2 ^ Z.pos k)%Z else None
        end in
      z ← magnitude;
      guard (z < 10 ^ 6)%Z;;
      Some (if s then (- z)%Z else z)
  | _ => None
  end.

Definition format_whole (x : float) : string :=
  match whole_number x with
  | Some z =>
      if PrimFloat.ltb (PrimFloat.div 1 x) 0 then "-" +:+ pretty (Z.abs z)
      else pretty z
  | None => ""
  end.

(** ** The builder operators *)

(** [constant_t]'s converting constructor lets a bare number stand where a
    node is expected. *)
Coercion constant_t : float >-> node.

Definition operator_plus (first second : node) : node :=
  binary_t operation_t.plus first second.
Definition operator_minus (first second : node) : node :=
  binary_t operation_t.minus first second.
Definition operator_mul (first second : node) : node :=
  binary_t operation_t.mul first second.
Definition operator_div (first second : node) : node :=
  binary_t operation_t.div first second.

Definition operator_unary_plus (n : node) : node :=
  unary_t operation_t.plus n.
Definition operator_unary_minus (n : node) : node :=
  unary_t operation_t.minus n.

(** The assignment operators exist for a [variable_t] on the left only. *)
Definition operator_shl_assign (first : variable_t) (second : node) : node :=
  assign_t operation_t.assign first second.
Definition operator_plus_assign (first : variable_t) (second : node) : node :=
  assign_t operation_t.plus first second.
Definition operator_minus_assign (first : variable_t) (second : node) : node :=
  assign_t operation_t.minus first second.
Definition operator_mul_assign (first : variable_t) (second : node) : node :=
  assign_t operation_t.mul first second.
Definition operator_div_assign (first : variable_t) (second : node) : node :=
  assign_t operation_t.div first second.

(** Trees obtained from constants and variables through the operators. *)
Inductive operator_built : node -> Prop :=
| built_constant x : operator_built (constant_t x)
| built_variable v : operator_built (variable_node v)
| built_plus a b :
    operator_built a -> operator_built b -> operator_built (operator_plus a b)
| built_minus a b :
    operator_built a -> operator_built b -> operator_built (operator_minus a b)
| built_mul a b :
    operator_built a -> operator_built b -> operator_built (operator_mul a b)
| built_div a b :
    operator_built a -> operator_built b -> operator_built (operator_div a b)
| built_unary_plus a :
    operator_built a -> operator_built (operator_unary_plus a)
| built_unary_minus a :
    operator_built a -> operator_built (operator_unary_minus a)
| built_shl_assign v b :
    operator_built b -> operator_built (operator_shl_assign v b)
| built_plus_assign v b :
    operator_built b -> operator_built (operator_plus_assign v b)
| built_minus_assign v b :
    operator_built b -> operator_built (operator_minus_assign v b)
| built_mul_assign v b :
    operator_built b -> operator_built (operator_mul_assign v b)
| built_div_assign v b :
    operator_built b -> operator_built (operator_div_assign v b).

(** ** Shapes of trees *)

(** No [assign_t] node anywhere in the tree. *)
Fixpoint no_assign (n : node) : bool :=
  match n with
  | constant_t _ | variable_node _ => true
  | unary_t _ x => no_assign x
  | binary_t _ l r => no_assign l && no_assign r
  | assign_t _ _ _ => false
  end.

(** Every tag is one its [switch] has a [case] for. *)
Definition unary_tag (op : operation_t.t) : bool :=
  match op with
  | operation_t.plus | operation_t.minus => true
  | _ => false
  end.

Definition binary_tag (op : operation_t.t) : bool :=
  match op with
  | operation_t.assign => false
  | _ => true
  end.

Fixpoint tags_handled (n : node) : bool :=
  match n with
  | constant_t _ | variable_node _ => true
  | unary_t op x => unary_tag op && tags_handled x
  | binary_t op l r => binary_tag op && tags_handled l && tags_handled r
  | assign_t _ _ e => tags_handled e
  end.

(** Every variable of the tree names a slot below [bound]. *)
Fixpoint ids_below (bound : nat) (n : node) : bool :=
  match n with
  | constant_t _ => true
  | variable_node v => bool_decide (m_id v < bound)
  | unary_t _ x => ids_below bound x
  | binary_t _ l r => ids_below bound l && ids_below bound r
  | assign_t _ x e => bool_decide (m_id x < bound) && ids_below bound e
  end.

(** ** Evaluation contexts *)

(** A tree with one hole, to speak of a node inside a larger tree. *)
Inductive context : Set :=
| hole
| in_unary (op : operation_t.t) (C : context)
| in_first (op : operation_t.t) (C : context) (second : node)
| in_second (op : operation_t.t) (first : node) (C : context)
| in_assign (op : operation_t.t) (x : variable_t) (C : context).

Fixpoint plug (C : context) (n : node) : node :=
  match C with
  | hole => n
  | in_unary op C => unary_t op (plug C n)
  | in_first op C second => binary_t op (plug C n) second
  | in_second op first C => binary_t op first (plug C n)
  | in_assign op x C => assign_t op x (plug C n)
  end.

(** What [visit] runs on the way from the root to the hole: the operands
    the enclosing nodes evaluate before the one that holds the hole. *)
Fixpoint enter (ord : operand_order) (C : context) : eval unit :=
  match C with
  | hole => ret tt
  | in_unary op C =>
      if unary_tag op then enter ord C else undefined no_return_value
  | in_first op C second =>
      match op with
      | operation_t.assign => undefined no_return_value
      | operation_t.div =>
          (s <- visit ord second ;;
           if is_zero s then throw division_by_zero else enter ord C)
      | _ =>
          match ord with
          | left_to_right => enter ord C
          | right_to_left => (visit ord second ;;; enter ord C)
          end
      end
  | in_second op first C =>
      match op with
      | operation_t.assign => undefined no_return_value
      | operation_t.div => enter ord C
      | _ =>
          match ord with
          | left_to_right => (visit ord first ;;; enter ord C)
          | right_to_left => enter ord C
          end
      end
  | in_assign _ _ C => enter ord C
  end.

(** ** Predicates on outcomes *)

(** [after R st o]: if [o] leaves a state behind, it is [R]-related to
    [st]; [surely R st o] moreover excludes undefined behaviour. *)
Definition after {A} (R : state_t -> state_t -> Prop) (st : state_t)
    (o : outcome A) : Prop :=
  match o with
  | Returns _ st' | Throws _ st' => R st st'
  | Undefined _ => True
  end.

Definition surely {A} (R : state_t -> state_t -> Prop) (st : state_t)
    (o : outcome A) : Prop :=
  match o with
  | Returns _ st' | Throws _ st' => R st st'
  | Undefined _ => False
  end.

Definition same_length (st st' : state_t) : Prop := length st' = length st.

(** [avoids u o]: the outcome [o] is not the undefined behaviour [u]. *)
Definition avoids {A} (u : undefined_behaviour) (o : outcome A) : Prop :=
  o <> Undefined u.

(** ** Slots of a tree *)

(** The slots the [assign_t] nodes of a tree write to. *)
Fixpoint targets (n : node) : list nat :=
  match n with
  | constant_t _ | variable_node _ => []
  | unary_t _ x => targets x
  | binary_t _ l r => targets l ++ targets r
  | assign_t _ x e => m_id x :: targets e
  end.

(** The slots a tree mentions, to read or to write. *)
Fixpoint slots (n : node) : list nat :=
  match n with
  | constant_t _ => []
  | variable_node v => [m_id v]
  | unary_t _ x => slots x
  | binary_t _ l r => slots l ++ slots r
  | assign_t _ x e => m_id x :: slots e
  end.

(** No [binary_t] node tagged [div] anywhere in the tree. *)
Fixpoint no_division (n : node) : bool :=
  match n with
  | constant_t _ | variable_node _ => true
  | unary_t _ x => no_division x
  | binary_t op l r =>
      match op with
      | operation_t.div => false
      | _ => no_division l && no_division r
      end
  | assign_t _ _ e => no_division e
  end.

(** Two states hold the same values in the slots of [T]. *)
Definition agree_on (T : list nat) (st st' : state_t) : Prop :=
  forall j, j ∈ T -> st !! j = st' !! j.

(** The slots outside [T] are as they were. *)
Definition unchanged_outside (T : list nat) (st st' : state_t) : Prop :=
  forall j, j ∉ T -> st' !! j = st !! j.

(** An outcome throws nothing but exceptions in [E]. *)
Definition throws_within {A} (E : exception -> Prop) (o : outcome A) : Prop :=
  match o with
  | Throws e _ => E e
  | _ => True
  end.

(** Two outcomes of the same kind, with the same value or exception, whose
    states agree on [T]. *)
Definition alike {A} (T : list nat) (o o' : outcome A) : Prop :=
  match o, o' with
  | Returns x st, Returns x' st' => x = x' /\ agree_on T st st'
  | Throws e st, Throws e' st' => e = e' /\ agree_on T st st'
  | Undefined u, Undefined u' => u = u'
  | _, _ => False
  end.

(** ** Declaring several variables *)

(** A caller declares its variables one after the other on the same table
    (as [test.cpp] does for [a], [b] and [c]). *)
Fixpoint variables (t : symbol_table_t) (decls : list (string * float))
  : list variable_t * symbol_table_t :=
  match decls with
  | [] => ([], t)
  | (nm, init) :: rest =>
      let '(v, t1) := variable t nm init in
      let '(vs, t2) := variables t1 rest in
      (v :: vs, t2)
  end.

(** ** The scenario of [test.cpp] *)

Definition sys : symbol_table_t :=
  let t0 := empty_table in
  let t1 := snd (variable t0 "a" 2%float) in
  let t2 := snd (variable t1 "b" 3%float) in
  snd (variable t2 "c" 0%float).

Definition a : variable_t := mk_variable_t 0.
Definition b : variable_t := mk_variable_t 1.
Definition c : variable_t := mk_variable_t 2.

Coercion variable_node : variable_t >-> node.

(** ** The order of the operands, as the specification words it *)

(** The operator of a binary node applied to the two operand values, with
    the zero check of division. *)
Definition apply_binary (op : operation_t.t) (first second : float)
  : eval float :=
  match op with
  | operation_t.plus => ret (PrimFloat.add first second)
  | operation_t.minus => ret (PrimFloat.sub first second)
  | operation_t.mul => ret (PrimFloat.mul first second)
  | operation_t.div =>
      if is_zero second then throw division_by_zero
      else ret (PrimFloat.div first second)
  | operation_t.assign => undefined no_return_value
  end.

(** "Evaluate left before right; apply op": the left operand, then the
    right operand in the state the left one leaves, then the operator. *)
Definition left_then_right (ord : operand_order) (op : operation_t.t)
    (l r : node) : eval float :=
  (first <- visit ord l ;;
   second <- visit ord r ;;
   apply_binary op first second).

(** The mirror image: the right operand first. *)
Definition right_then_left (ord : operand_order) (op : operation_t.t)
    (l r : node) : eval float :=
  (second <- visit ord r ;;
   first <- visit ord l ;;
   apply_binary op first second).

(** * Properties *)

(** ** The checks of [test.cpp], run on the embedding *)

Example check_binary st :
  evaluate left_to_right (operator_plus (constant_t 2) (constant_t 4)) st
  = Returns 6%float st
  /\ evaluate left_to_right (operator_minus (constant_t 2) (constant_t 4)) st
     = Returns (-2)%float st
  /\ evaluate left_to_right (operator_mul (constant_t 2) (constant_t 4)) st
     = Returns 8%float st
  /\ evaluate left_to_right (operator_div (constant_t 2) (constant_t 4)) st
     = Returns 0.5%float st
  /\ evaluate left_to_right
       (operator_unary_minus (operator_plus (constant_t 2) (constant_t 4))) st
     = Returns (-6)%float st.
Proof. repeat split. Qed.

Example declared_table :
  sys = mk_symbol_table_t ["a"; "b"; "c"] [2; 3; 0]%float
  /\ fst (variable empty_table "a" 2%float) = a
  /\ fst (variable (snd (variable empty_table "a" 2%float)) "b" 3%float) = b.
Proof. repeat split. Qed.

Example assignment_expression_evaluation ord :
  evaluate ord (operator_shl_assign c (operator_minus b a)) [2; 3; 0]%float
  = Returns 1%float [2; 3; 1]%float
  /\ evaluate ord
       (operator_plus_assign c (operator_minus b (operator_mul a c)))
       [2; 3; 1]%float
     = Returns 2%float [2; 3; 2]%float
  /\ evaluate ord
       (operator_plus_assign c (operator_minus b (operator_mul a c)))
       [2; 3; 2]%float
     = Returns 1%float [2; 3; 1]%float.
Proof. destruct ord; repeat split. Qed.

Example multiplication_and_division ord :
  evaluate ord (operator_mul a b) (m_state sys)
  = Returns 6%float (m_state sys)
  /\ evaluate ord (operator_div a b) (m_state sys)
     = Returns (PrimFloat.div 2 3) (m_state sys)
  /\ evaluate ord (operator_div a c) (m_state sys)
     = Throws (logic_error "division by zero") (m_state sys)
  /\ evaluate ord (operator_minus a (operator_div b a)) (m_state sys)
     = Returns 0.5%float (m_state sys).
Proof. destruct ord; repeat split. Qed.

Example store_expression_and_evaluate_lazily ord :
  let expr := operator_mul (operator_plus a b) c in
  let c_4 := operator_shl_assign c (constant_t 4) in
  evaluate ord expr [2; 3; 0]%float = Returns 0%float [2; 3; 0]%float
  /\ evaluate ord c_4 [2; 3; 0]%float = Returns 4%float [2; 3; 4]%float
  /\ evaluate ord expr [2; 3; 4]%float = Returns 20%float [2; 3; 4]%float.
Proof. destruct ord; repeat split. Qed.


(** Float facts. *)
Lemma is_zero_spec (x : float) :
  is_zero x = true <-> x = 0%float \/ x = (-0)%float.
Proof.
  unfold is_zero. rewrite FloatAxioms.eqb_spec. split.
  - intro H. destruct (Prim2SF x) as [s|s| |s m e] eqn:E; simpl in H;
      try discriminate.
    + destruct s; [right|left]; apply Prim2SF_inj; rewrite E; reflexivity.
    + destruct s; discriminate.
    + destruct s; discriminate.
  - intros [->| ->]; reflexivity.
Qed.

(** ** Reasoning about outcomes *)

Section Outcomes.

Context (R : state_t -> state_t -> Prop).
Hypothesis R_refl : forall st, R st st.
Hypothesis R_trans : forall st1 st2 st3, R st1 st2 -> R st2 st3 -> R st1 st3.

Lemma after_ret {A} (x : A) st : after R st (ret x st).
Proof. apply R_refl. Qed.

Lemma after_throw {A} e st : after R st (@throw A e st).
Proof. apply R_refl. Qed.

Lemma after_load id st : after R st (load id st).
Proof. unfold load. destruct (st !! id); simpl; auto. Qed.

Lemma after_bind {A B} (m : eval A) (k : A -> eval B) st :
  after R st (m st) ->
  (forall x st', R st st' -> after R st' (k x st')) ->
  after R st (bind m k st).
Proof.
  unfold bind. destruct (m st) as [x st'|e st'|u]; simpl; auto.
  intros H Hk. specialize (Hk x st' H).
  destruct (k x st') as [y st''|e st''|u]; simpl in *; eauto.
Qed.

Lemma after_operands {A B} ord (l : eval A) (r : eval B) st :
  (forall st', R st st' -> after R st' (l st')) ->
  (forall st', R st st' -> after R st' (r st')) ->
  after R st (operands ord l r st).
Proof.
  intros Hl Hr. destruct ord; simpl.
  - apply after_bind; [auto|]. intros x st1 H1.
    apply after_bind; [auto|]. intros y st2 H2. apply after_ret.
  - apply after_bind; [auto|]. intros y st1 H1.
    apply after_bind; [auto|]. intros x st2 H2. apply after_ret.
Qed.

Lemma surely_ret {A} (x : A) st : surely R st (ret x st).
Proof. apply R_refl. Qed.

Lemma surely_throw {A} e st : surely R st (@throw A e st).
Proof. apply R_refl. Qed.

Lemma surely_bind {A B} (m : eval A) (k : A -> eval B) st :
  surely R st (m st) ->
  (forall x st', R st st' -> surely R st' (k x st')) ->
  surely R st (bind m k st).
Proof.
  unfold bind. destruct (m st) as [x st'|e st'|u]; simpl; auto.
  intros H Hk. specialize (Hk x st' H).
  destruct (k x st') as [y st''|e st''|u]; simpl in *; eauto.
Qed.

Lemma surely_operands {A B} ord (l : eval A) (r : eval B) st :
  (forall st', R st st' -> surely R st' (l st')) ->
  (forall st', R st st' -> surely R st' (r st')) ->
  surely R st (operands ord l r st).
Proof.
  intros Hl Hr. destruct ord; simpl.
  - apply surely_bind; [auto|]. intros x st1 H1.
    apply surely_bind; [auto|]. intros y st2 H2. apply surely_ret.
  - apply surely_bind; [auto|]. intros y st1 H1.
    apply surely_bind; [auto|]. intros x st2 H2. apply surely_ret.
Qed.

End Outcomes.

Lemma surely_after {A} R st (o : outcome A) : surely R st o -> after R st o.
Proof. destruct o; simpl; tauto. Qed.

Lemma same_length_refl st : same_length st st.
Proof. reflexivity. Qed.

Lemma same_length_trans st1 st2 st3 :
  same_length st1 st2 -> same_length st2 st3 -> same_length st1 st3.
Proof. unfold same_length. congruence. Qed.

Lemma eq_state_trans (st1 st2 st3 : state_t) :
  st1 = st2 -> st2 = st3 -> st1 = st3.
Proof. congruence. Qed.

(** A tree without [assign_t] leaves the state as it found it. *)
Lemma visit_no_assign ord n :
  no_assign n = true -> forall st, after eq st (visit ord n st).
Proof.
  induction n as [x|v|op x IH|op l IHl r IHr|op x e IH]; simpl; intros Hn st.
  - reflexivity.
  - apply after_load; auto.
  - destruct op; simpl; auto.
    apply after_bind; [exact eq_state_trans|auto|].
    intros y st' <-. reflexivity.
  - apply andb_prop in Hn as [Hl Hr].
    assert (Hops : after eq st
                     (operands ord (visit ord l) (visit ord r) st)).
    { apply after_operands; [auto|exact eq_state_trans| |];
        intros st' <-; auto. }
    destruct op; simpl; auto;
      try (apply after_bind; [exact eq_state_trans|exact Hops|];
           intros p st' <-; reflexivity).
    apply after_bind; [exact eq_state_trans|auto|].
    intros s st' <-. destruct (is_zero s); [reflexivity|].
    apply after_bind; [exact eq_state_trans|auto|].
    intros f st' <-. reflexivity.
  - discriminate.
Qed.

(** Evaluation never changes the number of slots. *)
Lemma after_store id x st : after same_length st (store id x st).
Proof.
  unfold store. destruct (decide (id < length st)); simpl; auto.
  unfold same_length. apply length_insert.
Qed.

Lemma visit_same_length ord n st : after same_length st (visit ord n st).
Proof.
  revert st.
  induction n as [x|v|op x IH|op l IHl r IHr|op x e IH]; simpl; intros st.
  - reflexivity.
  - apply after_load, same_length_refl.
  - destruct op; simpl; auto.
    apply after_bind; [exact same_length_trans|auto|].
    intros; apply after_ret, same_length_refl.
  - assert (Hops : after same_length st
                     (operands ord (visit ord l) (visit ord r) st)).
    { apply after_operands;
        [exact same_length_refl|exact same_length_trans|auto|auto]. }
    destruct op; simpl; auto;
      try (apply after_bind; [exact same_length_trans|exact Hops|];
           intros; apply after_ret, same_length_refl).
    apply after_bind; [exact same_length_trans|auto|].
    intros s st' _. destruct (is_zero s); [apply same_length_refl|].
    apply after_bind; [exact same_length_trans|auto|].
    intros; apply after_ret, same_length_refl.
  - apply after_bind; [exact same_length_trans|auto|].
    intros value st1 _.
    apply after_bind;
      [exact same_length_trans|apply after_load, same_length_refl|].
    intros variable st2 _.
    apply after_bind; [exact same_length_trans|apply after_store|].
    intros; apply after_ret, same_length_refl.
Qed.

(** With handled tags and slots in range, evaluation stays defined. *)
Lemma surely_load id st :
  id < length st -> surely same_length st (load id st).
Proof.
  intros H. unfold load. destruct (st !! id) as [x|] eqn:E.
  - apply same_length_refl.
  - apply lookup_ge_None_1 in E. lia.
Qed.

Lemma surely_store id x st :
  id < length st -> surely same_length st (store id x st).
Proof.
  intros H. unfold store. destruct (decide (id < length st)); [|done].
  simpl. unfold same_length. apply length_insert.
Qed.

Lemma visit_defined ord n :
  tags_handled n = true ->
  forall st, ids_below (length st) n = true ->
  surely same_length st (visit ord n st).
Proof.
  induction n as [x|v|op x IH|op l IHl r IHr|op x e IH]; simpl;
    intros Ht st Hi.
  - reflexivity.
  - apply surely_load. by apply bool_decide_eq_true in Hi.
  - apply andb_prop in Ht as [Hop Ht].
    destruct op; try discriminate; simpl; auto.
    apply surely_bind; [exact same_length_trans|auto|].
    intros; apply surely_ret, same_length_refl.
  - apply andb_prop in Ht as [Ht Htr]. apply andb_prop in Ht as [Hop Htl].
    apply andb_prop in Hi as [Hil Hir].
    assert (Hl : forall st', same_length st st' ->
                   surely same_length st' (visit ord l st')).
    { intros st' E. apply IHl; [done|]. by rewrite E. }
    assert (Hr : forall st', same_length st st' ->
                   surely same_length st' (visit ord r st')).
    { intros st' E. apply IHr; [done|]. by rewrite E. }
    assert (Hops : surely same_length st
                     (operands ord (visit ord l) (visit ord r) st)).
    { apply surely_operands;
        [exact same_length_refl|exact same_length_trans|auto|auto]. }
    destruct op; try discriminate; simpl;
      try (apply surely_bind; [exact same_length_trans|exact Hops|];
           intros; apply surely_ret, same_length_refl).
    apply surely_bind; [exact same_length_trans|auto|].
    intros s st' E. destruct (is_zero s); [apply same_length_refl|].
    apply surely_bind; [exact same_length_trans|auto|].
    intros; apply surely_ret, same_length_refl.
  - apply andb_prop in Hi as [Hx Hi]. apply bool_decide_eq_true in Hx.
    apply surely_bind; [exact same_length_trans|auto|].
    intros value st1 E1.
    apply surely_bind; [exact same_length_trans| |].
    { apply surely_load. by rewrite E1. }
    intros variable st2 E2.
    apply surely_bind; [exact same_length_trans| |].
    { apply surely_store. by rewrite E2, E1. }
    intros; apply surely_ret, same_length_refl.
Qed.

(** An exception thrown inside a tree leaves through every enclosing
    node, with the state as it was when it was thrown. *)
Lemma plug_throws ord C :
  forall st0 st n e st1,
    enter ord C st0 = Returns tt st ->
    visit ord n st = Throws e st1 ->
    visit ord (plug C n) st0 = Throws e st1.
Proof.
  induction C as [|op C IH|op C IH second|op first C IH|op x C IH];
    simpl; intros st0 st n e st1 HC Hn.
  - unfold ret in HC. by simplify_eq.
  - destruct op; simpl in HC; try discriminate.
    + eauto.
    + unfold bind. by rewrite (IH _ _ _ _ _ HC Hn).
  - destruct op; try discriminate.
    1-3: destruct ord; simpl; unfold bind in *;
      [ by rewrite (IH _ _ _ _ _ HC Hn)
      | destruct (visit right_to_left second st0) as [s st'| |];
          try discriminate; by rewrite (IH _ _ _ _ _ HC Hn) ].
    unfold bind in *.
    destruct (visit ord second st0) as [s st'| |]; try discriminate.
    destruct (is_zero s); [discriminate|].
    by rewrite (IH _ _ _ _ _ HC Hn).
  - destruct op; try discriminate.
    1-3: destruct ord; simpl; unfold bind in *;
      [ destruct (visit left_to_right first st0) as [s st'| |];
          try discriminate; by rewrite (IH _ _ _ _ _ HC Hn)
      | by rewrite (IH _ _ _ _ _ HC Hn) ].
    unfold bind. by rewrite (IH _ _ _ _ _ HC Hn).
  - unfold bind. by rewrite (IH _ _ _ _ _ HC Hn).
Qed.

(** And when an operand evaluated on the way to the hole throws, the hole
    is never reached: the tree throws whatever stands in the hole. *)
Lemma enter_throws ord C :
  forall st0 n e st1,
    enter ord C st0 = Throws e st1 ->
    visit ord (plug C n) st0 = Throws e st1.
Proof.
  induction C as [|op C IH|op C IH second|op first C IH|op x C IH];
    simpl; intros st0 n e st1 HC.
  - discriminate.
  - destruct op; simpl in HC; try discriminate.
    + eauto.
    + unfold bind. by rewrite (IH _ n _ _ HC).
  - destruct op; try discriminate.
    1-3: destruct ord; simpl; unfold bind in *;
      [ by rewrite (IH _ n _ _ HC)
      | destruct (visit right_to_left second st0) as [s st'| |];
          try (by simplify_eq); by rewrite (IH _ n _ _ HC) ].
    unfold bind in *.
    destruct (visit ord second st0) as [s st'| |]; try (by simplify_eq).
    destruct (is_zero s); [unfold throw in *; by simplify_eq|].
    by rewrite (IH _ n _ _ HC).
  - destruct op; try discriminate.
    1-3: destruct ord; simpl; unfold bind in *;
      [ destruct (visit left_to_right first st0) as [s st'| |];
          try (by simplify_eq); by rewrite (IH _ n _ _ HC)
      | by rewrite (IH _ n _ _ HC) ].
    unfold bind. by rewrite (IH _ n _ _ HC).
  - unfold bind. by rewrite (IH _ n _ _ HC).
Qed.

(** ** Division by zero *)

(** C3. In [binary_t] division, when the right-hand operand evaluates to a
    value that compares equal to zero, the evaluation throws the
    division-by-zero exception and returns no value; wherever the division
    sits in a larger tree, the whole evaluation ends with that exception and
    with the state exactly as it was at the throw, so that no enclosing
    operation is applied. *)
Theorem division_by_zero_aborts ord l r st b st1 :
  visit ord r st = Returns b st1 ->
  is_zero b = true ->
  evaluate ord (binary_t operation_t.div l r) st = Throws division_by_zero st1
  /\ (forall x st', evaluate ord (binary_t operation_t.div l r) st
                    <> Returns x st')
  /\ (forall C st0,
        enter ord C st0 = Returns tt st ->
        evaluate ord (plug C (binary_t operation_t.div l r)) st0
        = Throws division_by_zero st1).
Proof.
  intros Hr Hb.
  assert (H : visit ord (binary_t operation_t.div l r) st
              = Throws division_by_zero st1).
  { simpl. unfold bind. rewrite Hr, Hb. reflexivity. }
  unfold evaluate. split; [exact H|]. split.
  - intros x st'. rewrite H. discriminate.
  - intros C st0 HC. eapply plug_throws; eauto.
Qed.

(** In the test scenario [c] holds zero: [a += b + a / c] throws and [a]
    keeps its value. *)
Lemma division_by_zero_aborts_witness :
  visit left_to_right c [2; 3; 0]%float = Returns 0%float [2; 3; 0]%float
  /\ is_zero 0%float = true
  /\ evaluate left_to_right
       (operator_plus_assign a (operator_plus b (operator_div a c)))
       [2; 3; 0]%float
     = Throws division_by_zero [2; 3; 0]%float.
Proof.
  split; [reflexivity|]. split; [reflexivity|].
  destruct (division_by_zero_aborts left_to_right a c [2; 3; 0]%float
              0%float [2; 3; 0]%float eq_refl eq_refl) as (_ & _ & H).
  exact (H (in_assign operation_t.plus a
              (in_second operation_t.plus b hole))
           [2; 3; 0]%float eq_refl).
Defined.

(** C9. The zero test of [binary_t] division is the exact comparison
    [second == 0]: a right-hand value of negative zero throws like positive
    zero does, and any other right-hand value, however small, never throws
    at this node: the quotient of the two operand values is returned. *)
Theorem division_zero_test_is_exact :
  (forall ord l st,
      evaluate ord (operator_div l (constant_t (-0)%float)) st
      = Throws division_by_zero st)
  /\ (forall ord l r st b st1,
        visit ord r st = Returns b st1 ->
        (b = 0%float \/ b = (-0)%float ->
         evaluate ord (operator_div l r) st = Throws division_by_zero st1)
        /\ (b <> 0%float -> b <> (-0)%float ->
            forall x st2,
              visit ord l st1 = Returns x st2 ->
              evaluate ord (operator_div l r) st
              = Returns (PrimFloat.div x b) st2)).
Proof.
  split; [reflexivity|].
  intros ord l r st b st1 Hr. unfold evaluate. simpl. unfold bind.
  rewrite Hr. split.
  - intros Hb. apply is_zero_spec in Hb. by rewrite Hb.
  - intros Hp Hm x st2 Hl.
    destruct (is_zero b) eqn:Hb.
    + apply is_zero_spec in Hb. tauto.
    + by rewrite Hl.
Qed.

(** The smallest positive subnormal double is not zero: dividing by it
    does not throw (the quotient overflows to infinity). *)
Lemma division_zero_test_is_exact_witness :
  visit left_to_right (constant_t 0x1p-1074%float) [] =
    Returns 0x1p-1074%float []
  /\ 0x1p-1074%float <> 0%float
  /\ 0x1p-1074%float <> (-0)%float
  /\ visit left_to_right (constant_t 1%float) [] = Returns 1%float []
  /\ evaluate left_to_right
       (operator_div (constant_t 1%float) (constant_t 0x1p-1074%float)) []
     = Returns (PrimFloat.div 1 0x1p-1074)%float [].
Proof.
  assert (Hp : 0x1p-1074%float <> 0%float).
  { intros H. apply (f_equal Prim2SF) in H. vm_compute in H. discriminate. }
  assert (Hm : 0x1p-1074%float <> (-0)%float).
  { intros H. apply (f_equal Prim2SF) in H. vm_compute in H. discriminate. }
  split; [reflexivity|]. split; [exact Hp|]. split; [exact Hm|].
  split; [reflexivity|].
  destruct division_zero_test_is_exact as [_ H].
  destruct (H left_to_right (constant_t 1%float)
              (constant_t 0x1p-1074%float) [] 0x1p-1074%float [] eq_refl)
    as [_ Hq].
  exact (Hq Hp Hm 1%float [] eq_refl).
Defined.

(** ** Frame property *)

(** C4. A tree without an [assign_t] node leaves the state as it found it:
    whenever the evaluation ends with a state (by returning or by throwing)
    that state is the initial one, and with handled tags and variables in
    range it does end so. *)
Theorem evaluate_without_assign_preserves_state ord T env :
  no_assign T = true ->
  (forall st', final_state (evaluate ord T env) = Some st' -> st' = env)
  /\ (tags_handled T = true -> ids_below (length env) T = true ->
      final_state (evaluate ord T env) = Some env).
Proof.
  intros HT. unfold evaluate.
  pose proof (visit_no_assign ord T HT env) as Hframe.
  split.
  - intros st' Hst'.
    destruct (visit ord T env); simpl in *; by simplify_eq.
  - intros Htags Hids.
    pose proof (visit_defined ord T Htags env Hids) as Hdef.
    destruct (visit ord T env); simpl in *; by subst.
Qed.

Lemma evaluate_without_assign_preserves_state_witness :
  no_assign (operator_minus a (operator_div b a)) = true
  /\ final_state
       (evaluate right_to_left (operator_minus a (operator_div b a))
          [2; 3; 0]%float)
     = Some [2; 3; 0]%float.
Proof.
  split; [reflexivity|].
  apply (evaluate_without_assign_preserves_state right_to_left
           (operator_minus a (operator_div b a)) [2; 3; 0]%float eq_refl);
    reflexivity.
Defined.

(** ** The symbol table *)

(** C7. The two vectors of the symbol table have the same length, from the
    empty table on and after every operation: [variable] appends the name
    and the initial value, hands out the next index, and right after it the
    new variable evaluates to its initial value and [name] gives its name;
    an evaluation on the table's state keeps the number of slots. *)
Theorem symbol_table_lengths_agree :
  length (m_names empty_table) = length (m_state empty_table)
  /\ (forall t nm init,
        length (m_names t) = length (m_state t) ->
        let v := fst (variable t nm init) in
        let t' := snd (variable t nm init) in
        m_names t' = m_names t ++ [nm]
        /\ m_state t' = m_state t ++ [init]
        /\ m_id v = length (m_state t)
        /\ length (m_names t') = length (m_state t')
        /\ (forall ord,
              evaluate ord (variable_node v) (m_state t')
              = Returns init (m_state t'))
        /\ name t' (m_id v) = Some nm)
  /\ (forall ord n t st',
        length (m_names t) = length (m_state t) ->
        final_state (evaluate ord n (m_state t)) = Some st' ->
        length (m_names t) = length st').
Proof.
  split; [reflexivity|]. split.
  - intros t nm init Hinv. simpl.
    repeat split.
    + rewrite !length_app. simpl. lia.
    + intros ord. unfold evaluate. simpl. unfold load.
      by rewrite list_lookup_middle.
    + unfold name. simpl. by rewrite list_lookup_middle.
  - intros ord n t st' Hinv Hst'. unfold evaluate in Hst'.
    pose proof (visit_same_length ord n (m_state t)) as Hlen.
    destruct (visit ord n (m_state t)); simpl in *; simplify_eq;
      unfold same_length in Hlen; lia.
Qed.

(** Declaring [c] after [a] and [b], as [test.cpp] does. *)
Lemma symbol_table_lengths_agree_witness :
  let t := mk_symbol_table_t ["a"; "b"] [2; 3]%float in
  length (m_names t) = length (m_state t)
  /\ variable t "c" 0%float
     = (c, mk_symbol_table_t ["a"; "b"; "c"] [2; 3; 0]%float)
  /\ evaluate left_to_right (variable_node (fst (variable t "c" 0%float)))
       (m_state (snd (variable t "c" 0%float)))
     = Returns 0%float (m_state (snd (variable t "c" 0%float)))
  /\ name (snd (variable t "c" 0%float)) (m_id (fst (variable t "c" 0%float)))
     = Some "c".
Proof.
  intros t. split; [reflexivity|]. split; [reflexivity|].
  destruct symbol_table_lengths_agree as (_ & H & _).
  destruct (H t "c" 0%float eq_refl) as (_ & _ & _ & _ & He & Hn).
  split; [exact (He left_to_right)|exact Hn].
Defined.

(** ** Tags *)

Lemma avoids_bind {A B} u (m : eval A) (k : A -> eval B) st :
  avoids u (m st) ->
  (forall x st', avoids u (k x st')) ->
  avoids u (bind m k st).
Proof.
  unfold avoids, bind. intros Hm Hk.
  destruct (m st) as [x st'| |u0]; [apply Hk|discriminate|].
  intros E. apply Hm. by simplify_eq.
Qed.

Lemma avoids_operands {A B} u ord (l : eval A) (r : eval B) st :
  (forall st', avoids u (l st')) ->
  (forall st', avoids u (r st')) ->
  avoids u (operands ord l r st).
Proof.
  intros Hl Hr.
  destruct ord; simpl; apply avoids_bind; auto; intros;
    apply avoids_bind; auto; intros; discriminate.
Qed.

Lemma load_avoids_no_return id st : avoids no_return_value (load id st).
Proof. unfold load, avoids. destruct (st !! id); discriminate. Qed.

Lemma store_avoids_no_return id x st :
  avoids no_return_value (store id x st).
Proof.
  unfold store, avoids. destruct (decide (id < length st)); discriminate.
Qed.

Lemma tags_handled_avoids_no_return ord n :
  tags_handled n = true ->
  forall st, avoids no_return_value (visit ord n st).
Proof.
  induction n as [x|v|op x IH|op l IHl r IHr|op x e IH]; simpl;
    intros Ht st.
  - discriminate.
  - apply load_avoids_no_return.
  - apply andb_prop in Ht as [Hop Ht].
    destruct op; try discriminate; simpl; auto.
    apply avoids_bind; auto. intros; discriminate.
  - apply andb_prop in Ht as [Ht Htr]. apply andb_prop in Ht as [Hop Htl].
    destruct op; try discriminate; simpl;
      try (apply avoids_bind; [apply avoids_operands; auto|];
           intros; discriminate).
    apply avoids_bind; auto. intros s st'.
    destruct (is_zero s); [discriminate|].
    apply avoids_bind; auto. intros; discriminate.
  - apply avoids_bind; auto. intros value st1.
    apply avoids_bind; [apply load_avoids_no_return|]. intros variable st2.
    apply avoids_bind; [apply store_avoids_no_return|].
    intros; discriminate.
Qed.

Lemma operator_built_tags_handled n :
  operator_built n -> tags_handled n = true.
Proof.
  induction 1; simpl; try reflexivity;
    repeat match goal with H : _ = true |- _ => rewrite H end;
    reflexivity.
Qed.

(** C10. The node constructors take any tag, and the evaluator has no case
    for a unary node tagged [assign], [mul] or [div] nor for a binary node
    tagged [assign]: such a node falls off the end of [visit] without a
    value.  The unary operators mint [plus] and [minus] only, every
    operator-built tree carries handled tags throughout, and evaluating
    such a tree never reaches the missing case: with its variables in
    range, the evaluation ends by returning or by throwing. *)
Theorem operator_built_never_falls_off_switch :
  (forall ord op x st,
      unary_tag op = false ->
      evaluate ord (unary_t op x) st = Undefined no_return_value)
  /\ (forall ord l r st,
        evaluate ord (binary_t operation_t.assign l r) st
        = Undefined no_return_value)
  /\ (forall n,
        operator_unary_plus n = unary_t operation_t.plus n
        /\ operator_unary_minus n = unary_t operation_t.minus n)
  /\ (forall n, operator_built n -> tags_handled n = true)
  /\ (forall ord n st,
        operator_built n ->
        evaluate ord n st <> Undefined no_return_value)
  /\ (forall ord n st,
        operator_built n ->
        ids_below (length st) n = true ->
        exists st', final_state (evaluate ord n st) = Some st').
Proof.
  split; [|split; [|split; [|split; [|split]]]].
  - intros ord op x st Hop. destruct op; try discriminate; reflexivity.
  - reflexivity.
  - intros n. split; reflexivity.
  - exact operator_built_tags_handled.
  - intros ord n st Hn.
    apply (tags_handled_avoids_no_return ord n
             (operator_built_tags_handled n Hn) st).
  - intros ord n st Hn Hids. unfold evaluate.
    pose proof (visit_defined ord n (operator_built_tags_handled n Hn)
                  st Hids) as Hdef.
    destruct (visit ord n st) as [x st'|e st'|u]; simpl in *;
      [by exists st'|by exists st'|done].
Qed.

(** A unary node built directly with [mul] has no value; [-(a * b)] built
    with the operators has one. *)
Lemma operator_built_never_falls_off_switch_witness :
  unary_tag operation_t.mul = false
  /\ evaluate left_to_right (unary_t operation_t.mul a) [2; 3; 0]%float
     = Undefined no_return_value
  /\ operator_built (operator_unary_minus (operator_mul a b))
  /\ tags_handled (operator_unary_minus (operator_mul a b)) = true
  /\ evaluate left_to_right (operator_unary_minus (operator_mul a b))
       [2; 3; 0]%float
     <> Undefined no_return_value.
Proof.
  assert (Hb : operator_built (operator_unary_minus (operator_mul a b))).
  { apply built_unary_minus, built_mul; apply built_variable. }
  destruct operator_built_never_falls_off_switch
    as (H1 & _ & _ & H4 & H5 & _).
  split; [reflexivity|].
  split; [exact (H1 left_to_right operation_t.mul a _ eq_refl)|].
  split; [exact Hb|].
  split; [exact (H4 _ Hb)|exact (H5 left_to_right _ _ Hb)].
Defined.

(** ** Compound division *)

Lemma float_neq (x y : float) : Prim2SF x <> Prim2SF y -> x <> y.
Proof. intros H E. apply H. by rewrite E. Qed.

(** C1 (the code departs from it). [visit(assign_t)] runs
    [variable /= value] without testing [value]: on the table of
    [test.cpp], where [c] holds zero, [a /= c] stores infinity in [a] and
    returns it, where the binary division [a / c] on the same state
    throws. *)
Theorem div_assign_has_no_zero_check :
  evaluate left_to_right c [2; 3; 0]%float = Returns 0%float [2; 3; 0]%float
  /\ is_zero 0%float = true
  /\ (forall ord,
        evaluate ord (operator_div_assign a c) [2; 3; 0]%float
        = Returns infinity [infinity; 3; 0]%float)
  /\ (forall ord,
        evaluate ord (operator_div a c) [2; 3; 0]%float
        = Throws division_by_zero [2; 3; 0]%float).
Proof.
  split; [reflexivity|]. split; [reflexivity|].
  split; intros []; reflexivity.
Qed.

(** ** Binary nodes *)

(** C2 fails for division: in [a / (a <<= 4)] with [a] at [2] the right
    operand runs first, so the left one reads [4] and the quotient is [1];
    left before right would give [2 / 4]. *)
Lemma left_before_right_fails_for_division :
  evaluate left_to_right
    (operator_div a (operator_shl_assign a (constant_t 4%float))) [2%float]
  = Returns 1%float [4%float]
  /\ evaluate right_to_left
       (operator_div a (operator_shl_assign a (constant_t 4%float)))
       [2%float]
     = Returns 1%float [4%float]
  /\ left_then_right left_to_right operation_t.div
       a (operator_shl_assign a (constant_t 4%float)) [2%float]
     = Returns 0.5%float [4%float]
  /\ evaluate left_to_right
       (operator_div a (operator_shl_assign a (constant_t 4%float)))
       [2%float]
     <> left_then_right left_to_right operation_t.div
          a (operator_shl_assign a (constant_t 4%float)) [2%float].
Proof.
  split; [reflexivity|]. split; [reflexivity|]. split; [reflexivity|].
  vm_compute. intros H.
  assert (E : 1%float = 0.5%float) by congruence.
  revert E. apply float_neq. vm_compute. discriminate.
Qed.

Lemma bind_assoc {A B C} (m : eval A) (k : A -> eval B) (h : B -> eval C) st :
  bind (bind m k) h st = bind m (fun x => bind (k x) h) st.
Proof. unfold bind. destruct (m st); reflexivity. Qed.

Lemma bind_ext {A B} (m : eval A) (k k' : A -> eval B) st :
  (forall x st', k x st' = k' x st') -> bind m k st = bind m k' st.
Proof. intros H. unfold bind. destruct (m st); auto. Qed.

(** C2, as the code has it.  For [+], [-] and [*] the two operand
    evaluations are unsequenced in the source: compiled left to right, the
    node is the left operand, then the right one in the state the left one
    leaves, then the operator; compiled right to left it is the mirror
    image.  For [/] the source sequences them itself: the right operand
    first, then the zero test, which throws before the left operand is
    touched, then the left operand in the state the right one leaves, then
    the quotient. *)
Theorem binary_operand_order :
  (forall l r st,
      evaluate left_to_right (operator_plus l r) st
      = left_then_right left_to_right operation_t.plus l r st
      /\ evaluate left_to_right (operator_minus l r) st
         = left_then_right left_to_right operation_t.minus l r st
      /\ evaluate left_to_right (operator_mul l r) st
         = left_then_right left_to_right operation_t.mul l r st)
  /\ (forall l r st,
        evaluate right_to_left (operator_plus l r) st
        = right_then_left right_to_left operation_t.plus l r st
        /\ evaluate right_to_left (operator_minus l r) st
           = right_then_left right_to_left operation_t.minus l r st
        /\ evaluate right_to_left (operator_mul l r) st
           = right_then_left right_to_left operation_t.mul l r st)
  /\ (forall ord l r st,
        evaluate ord (operator_div l r) st
        = match visit ord r st with
          | Returns second st1 =>
              if is_zero second then Throws division_by_zero st1
              else match visit ord l st1 with
                   | Returns first st2 =>
                       Returns (PrimFloat.div first second) st2
                   | Throws e st2 => Throws e st2
                   | Undefined u => Undefined u
                   end
          | Throws e st1 => Throws e st1
          | Undefined u => Undefined u
          end).
Proof.
  split; [|split].
  - intros l r st. unfold evaluate, left_then_right. simpl.
    repeat split; rewrite bind_assoc; apply bind_ext; intros x st';
      rewrite bind_assoc; apply bind_ext; reflexivity.
  - intros l r st. unfold evaluate, right_then_left. simpl.
    repeat split; rewrite bind_assoc; apply bind_ext; intros x st';
      rewrite bind_assoc; apply bind_ext; reflexivity.
  - intros ord l r st. unfold evaluate. simpl. unfold bind.
    destruct (visit ord r st) as [second st1| |]; try reflexivity.
    destruct (is_zero second); reflexivity.
Qed.

(** C6 fails when an operand assigns.  With [a] at [0], [a] evaluates to
    [0] and [a <<= 5] to [5], yet [a / (a <<= 5)] is [1], not [0 / 5]: the
    divisor runs first and the dividend reads the new slot.  Likewise
    [(a <<= 5) + a] compiled left to right, and [a + (a <<= 5)] compiled
    right to left, are [10], not [5]. *)
Lemma operator_laws_fail_when_an_operand_assigns :
  evaluate left_to_right a [0%float] = Returns 0%float [0%float]
  /\ evaluate left_to_right (operator_shl_assign a (constant_t 5%float))
       [0%float]
     = Returns 5%float [5%float]
  /\ is_zero 5%float = false
  /\ evaluate left_to_right
       (operator_div a (operator_shl_assign a (constant_t 5%float)))
       [0%float]
     = Returns 1%float [5%float]
  /\ evaluate right_to_left
       (operator_div a (operator_shl_assign a (constant_t 5%float)))
       [0%float]
     = Returns 1%float [5%float]
  /\ 1%float <> PrimFloat.div 0 5
  /\ evaluate left_to_right
       (operator_plus (operator_shl_assign a (constant_t 5%float)) a)
       [0%float]
     = Returns 10%float [5%float]
  /\ evaluate right_to_left
       (operator_plus a (operator_shl_assign a (constant_t 5%float)))
       [0%float]
     = Returns 10%float [5%float]
  /\ 10%float <> PrimFloat.add 5 0
  /\ 10%float <> PrimFloat.add 0 5.
Proof.
  repeat (split; [reflexivity|]).
  split; [apply float_neq; vm_compute; discriminate|].
  repeat (split; [reflexivity|]).
  split; apply float_neq; vm_compute; discriminate.
Qed.

(** C6, as the code has it.  When evaluating [x] and evaluating [y] in
    [env] each return a value and leave [env] as it is (as every tree
    without an [assign_t] node does), then [x + y], [x - y] and [x * y]
    evaluate in [env] to the sum, difference and product of the two values,
    and [x / y] to their quotient when the divisor's value is not zero;
    [env] is left as it is, whatever the order of the operands. *)
Theorem binary_operator_laws ord x y env vx vy :
  evaluate ord x env = Returns vx env ->
  evaluate ord y env = Returns vy env ->
  evaluate ord (operator_plus x y) env = Returns (PrimFloat.add vx vy) env
  /\ evaluate ord (operator_minus x y) env = Returns (PrimFloat.sub vx vy) env
  /\ evaluate ord (operator_mul x y) env = Returns (PrimFloat.mul vx vy) env
  /\ (is_zero vy = false ->
      evaluate ord (operator_div x y) env
      = Returns (PrimFloat.div vx vy) env).
Proof.
  unfold evaluate. intros Hx Hy.
  assert (Hops : operands ord (visit ord x) (visit ord y) env
                 = Returns (vx, vy) env).
  { destruct ord; simpl; unfold bind; rewrite ?Hx, ?Hy; simpl;
      rewrite ?Hx, ?Hy; reflexivity. }
  simpl. unfold bind. rewrite Hops, Hy. simpl.
  repeat split. intros ->. by rewrite Hx.
Qed.

(** [a - b / a] of [test.cpp], with [a = 2] and [b = 3]. *)
Lemma binary_operator_laws_witness :
  evaluate left_to_right a [2; 3; 0]%float = Returns 2%float [2; 3; 0]%float
  /\ evaluate left_to_right (operator_div b a) [2; 3; 0]%float
     = Returns 1.5%float [2; 3; 0]%float
  /\ evaluate left_to_right (operator_minus a (operator_div b a))
       [2; 3; 0]%float
     = Returns (PrimFloat.sub 2 1.5)%float [2; 3; 0]%float.
Proof.
  split; [reflexivity|]. split; [reflexivity|].
  exact (proj1 (proj2 (binary_operator_laws left_to_right a (operator_div b a)
                         [2; 3; 0]%float 2%float 1.5%float
                         eq_refl eq_refl))).
Defined.

(** ** Assignment *)

(** C5 fails when the value assigns to the target.  With [a] at [1],
    [a <<= 5] evaluates to [5], and [a += (a <<= 5)] returns [10] and
    leaves [10] in the slot: the slot is read after the value has been
    evaluated, so the sum is not [1 + 5]. *)
Lemma compound_assign_does_not_use_the_old_slot :
  ([1%float] : state_t) !! m_id a = Some 1%float
  /\ evaluate left_to_right (operator_shl_assign a (constant_t 5%float))
       [1%float]
     = Returns 5%float [5%float]
  /\ evaluate left_to_right
       (operator_plus_assign a (operator_shl_assign a (constant_t 5%float)))
       [1%float]
     = Returns 10%float [10%float]
  /\ evaluate right_to_left
       (operator_plus_assign a (operator_shl_assign a (constant_t 5%float)))
       [1%float]
     = Returns 10%float [10%float]
  /\ 10%float <> PrimFloat.add 1 5.
Proof.
  repeat (split; [reflexivity|]).
  apply float_neq. vm_compute. discriminate.
Qed.

(** C5, as the code has it.  [assign_t] evaluates its value first, then
    reads the target's slot in the state that evaluation leaves, stores the
    update of that slot value by the evaluated value ([updated]: overwrite,
    sum, difference, product, quotient) and returns what it stored; the
    other slots are as the value left them.  When the value holds no
    [assign_t] node, the slot read is the one of the initial state.  (For
    [/=] the statement covers divisors that are not zero.) *)
Theorem assign_reads_slot_after_value ord op x e env value st1 variable :
  evaluate ord e env = Returns value st1 ->
  st1 !! m_id x = Some variable ->
  (op = operation_t.div -> is_zero value = false) ->
  evaluate ord (assign_t op x e) env
  = Returns (updated op variable value)
      (<[m_id x := updated op variable value]> st1)
  /\ <[m_id x := updated op variable value]> st1 !! m_id x
     = Some (updated op variable value)
  /\ (forall j, j <> m_id x ->
        <[m_id x := updated op variable value]> st1 !! j = st1 !! j)
  /\ (no_assign e = true -> st1 = env /\ env !! m_id x = Some variable).
Proof.
  unfold evaluate. intros He Hx _.
  pose proof (lookup_lt_Some _ _ _ Hx) as Hlt.
  split; [|split; [|split]].
  - simpl. unfold bind. rewrite He. unfold load. rewrite Hx.
    unfold store. destruct (decide (m_id x < length st1)); [|lia].
    reflexivity.
  - by apply list_lookup_insert_eq.
  - intros j Hj. by apply list_lookup_insert_ne.
  - intros Hpure. pose proof (visit_no_assign ord e Hpure env) as Hframe.
    rewrite He in Hframe. simpl in Hframe. subst st1. by split.
Qed.

(** [b /= a] on the table of [test.cpp]: the divisor [2] is not zero. *)
Lemma assign_reads_slot_after_value_witness :
  evaluate left_to_right a [2; 3; 0]%float = Returns 2%float [2; 3; 0]%float
  /\ ([2; 3; 0]%float : state_t) !! m_id b = Some 3%float
  /\ (operation_t.div = operation_t.div -> is_zero 2%float = false)
  /\ evaluate left_to_right (operator_div_assign b a) [2; 3; 0]%float
     = Returns (PrimFloat.div 3 2) [2; PrimFloat.div 3 2; 0]%float.
Proof.
  split; [reflexivity|]. split; [reflexivity|]. split; [reflexivity|].
  exact (proj1 (assign_reads_slot_after_value left_to_right operation_t.div
                  b a [2; 3; 0]%float 2%float [2; 3; 0]%float 3%float
                  eq_refl eq_refl (fun _ => eq_refl))).
Defined.

(** ** The printer *)

Lemma append_assoc (s1 s2 s3 : string) :
  (s1 +:+ s2) +:+ s3 = s1 +:+ (s2 +:+ s3).
Proof.
  induction s1 as [|ch s1 IH]; [reflexivity|].
  change (String ch ((s1 +:+ s2) +:+ s3) = String ch (s1 +:+ (s2 +:+ s3))).
  by rewrite IH.
Qed.

Lemma append_empty_l (s : string) : "" +:+ s = s.
Proof. reflexivity. Qed.

Section PrinterFacts.

Variable format_double : float -> string.
Variable tab : symbol_table_t.

Local Abbreviation write := (print_visit format_double tab).
Local Abbreviation render := (printer format_double tab).

(** What the visitor writes does not depend on what the stream holds:
    it appends the rendering of the node. *)
Lemma print_visit_appends n :
  forall out, write n out = (fun s => out +:+ s) <$> render n.
Proof.
  unfold printer.
  induction n as [x|v|op x IH|op l IHl r IHr|op x e IH]; simpl; intros out.
  - reflexivity.
  - unfold print_variable. destruct (name tab (m_id v)); reflexivity.
  - rewrite (IH (out +:+ _)), (IH ("" +:+ _)).
    destruct (write x ""); simpl;
      [|reflexivity].
    by rewrite !append_assoc.
  - rewrite (IHl out).
    destruct (write l "") as [sl|]; simpl;
      [|reflexivity].
    rewrite (IHr ((out +:+ sl) +:+ _)), (IHr (sl +:+ _)).
    destruct (write r ""); simpl;
      [|reflexivity].
    by rewrite !append_assoc.
  - unfold print_variable.
    destruct (name tab (m_id x)) as [sx|]; simpl; [|reflexivity].
    rewrite (IH ((out +:+ sx) +:+ _)), (IH (sx +:+ _)).
    destruct (write e ""); simpl;
      [|reflexivity].
    by rewrite !append_assoc.
Qed.

Lemma printer_unary op x :
  render (unary_t op x) = (fun s => unary_symbol op +:+ s) <$> render x.
Proof.
  unfold printer at 1. simpl. by rewrite print_visit_appends.
Qed.

Lemma printer_binary op l r :
  render (binary_t op l r)
  = (sl ← render l; sr ← render r; Some (sl +:+ binary_symbol op +:+ sr)).
Proof.
  unfold printer at 1. simpl. fold (render l).
  destruct (render l) as [sl|]; simpl; [|reflexivity].
  rewrite print_visit_appends.
  destruct (render r) as [sr|]; simpl; [|reflexivity].
  by rewrite append_assoc.
Qed.

Lemma printer_assign op x e :
  render (assign_t op x e)
  = (sx ← name tab (m_id x); se ← render e;
     Some (sx +:+ assign_symbol op +:+ se)).
Proof.
  unfold printer at 1. simpl. unfold print_variable.
  destruct (name tab (m_id x)) as [sx|]; simpl; [|reflexivity].
  rewrite print_visit_appends.
  destruct (render e) as [se|]; simpl; [|reflexivity].
  by rewrite append_assoc.
Qed.

Lemma printer_total n :
  ids_below (length (m_names tab)) n = true -> is_Some (render n).
Proof.
  induction n as [x|v|op x IH|op l IHl r IHr|op x e IH]; simpl; intros Hn.
  - by eexists.
  - apply bool_decide_eq_true in Hn.
    unfold printer. simpl. unfold print_variable, name.
    destruct (lookup_lt_is_Some_2 _ _ Hn) as [s Hs]. rewrite Hs. by eexists.
  - rewrite printer_unary. destruct (IH Hn) as [s ->]. by eexists.
  - apply andb_prop in Hn as [Hl Hr]. rewrite printer_binary.
    destruct (IHl Hl) as [sl ->], (IHr Hr) as [sr ->]. by eexists.
  - apply andb_prop in Hn as [Hx He]. apply bool_decide_eq_true in Hx.
    rewrite printer_assign. unfold name.
    destruct (lookup_lt_is_Some_2 _ _ Hx) as [sx Hsx]. rewrite Hsx.
    destruct (IH He) as [se ->]. by eexists.
Qed.

End PrinterFacts.

(** C8. The printer is a function of the tree and the symbol table alone,
    and it yields a text for every tree whose variables are variables of
    the table.  The text is flat infix: a unary plus writes its operand
    alone and a unary minus a ["-"] before it; a binary node writes the
    left operand, the operator's symbol, the right operand, with no
    parentheses; an assignment writes the target's name, the assignment
    symbol, the value.  On the table of [test.cpp] the four printed
    examples come out as ["a+b"], ["a+=b"], ["a<<=b"] and, the stream
    printing the double [2] as ["2"], ["a+2"]. *)
Theorem printer_renders_flat_infix (format_double : float -> string)
    (tab : symbol_table_t) :
  (forall n,
      ids_below (length (m_names tab)) n = true ->
      is_Some (printer format_double tab n))
  /\ (forall x,
        printer format_double tab (operator_unary_plus x)
        = printer format_double tab x
        /\ printer format_double tab (operator_unary_minus x)
           = (fun s => "-" +:+ s) <$> printer format_double tab x)
  /\ (forall op l r,
        printer format_double tab (binary_t op l r)
        = (sl ← printer format_double tab l;
           sr ← printer format_double tab r;
           Some (sl +:+ binary_symbol op +:+ sr)))
  /\ binary_symbol <$>
       [operation_t.plus; operation_t.minus; operation_t.mul; operation_t.div]
     = ["+"; "-"; "*"; "/"]
  /\ (forall op x e,
        printer format_double tab (assign_t op x e)
        = (sx ← name tab (m_id x);
           se ← printer format_double tab e;
           Some (sx +:+ assign_symbol op +:+ se)))
  /\ assign_symbol <$>
       [operation_t.assign; operation_t.plus; operation_t.minus;
        operation_t.mul; operation_t.div]
     = ["<<="; "+="; "-="; "*="; "/="]
  /\ printer format_double sys (operator_plus a b) = Some "a+b"
  /\ printer format_double sys (operator_plus_assign a b) = Some "a+=b"
  /\ printer format_double sys (operator_shl_assign a b) = Some "a<<=b"
  /\ (format_double 2%float = "2" ->
      printer format_double sys (operator_plus a (constant_t 2%float))
      = Some "a+2").
Proof.
  split; [apply printer_total|].
  split.
  { intros x. unfold operator_unary_plus, operator_unary_minus.
    rewrite !printer_unary. split; [|reflexivity].
    destruct (printer format_double tab x); reflexivity. }
  split; [apply printer_binary|]. split; [reflexivity|].
  split; [apply printer_assign|]. split; [reflexivity|].
  repeat (split; [reflexivity|]).
  intros H2. unfold printer. simpl. by rewrite H2.
Qed.

(** [c <<= -(a * b)] on the table of [test.cpp], and [a + 2] with a
    formatter that prints whole numbers by their digits. *)
Lemma printer_renders_flat_infix_witness :
  ids_below (length (m_names sys))
    (operator_shl_assign c (operator_unary_minus (operator_mul a b))) = true
  /\ format_whole 2%float = "2"
  /\ is_Some (printer format_whole sys
                (operator_shl_assign c
                   (operator_unary_minus (operator_mul a b))))
  /\ printer format_whole sys (operator_plus a (constant_t 2%float))
     = Some "a+2".
Proof.
  destruct (printer_renders_flat_infix format_whole sys)
    as (Htotal & _ & _ & _ & _ & _ & _ & _ & _ & Htwo).
  split; [reflexivity|]. split; [reflexivity|].
  split; [apply Htotal; reflexivity|exact (Htwo eq_refl)].
Defined.

(** * Further properties of the evaluator *)

(** ** What can be thrown *)

Lemma throws_within_bind {A B} E (m : eval A) (k : A -> eval B) st :
  throws_within E (m st) ->
  (forall x st', throws_within E (k x st')) ->
  throws_within E (bind m k st).
Proof.
  unfold bind. intros Hm Hk.
  destruct (m st) as [x st'|e st'|u]; simpl in *; auto.
Qed.

Lemma throws_within_operands {A B} E ord (l : eval A) (r : eval B) st :
  (forall st', throws_within E (l st')) ->
  (forall st', throws_within E (r st')) ->
  throws_within E (operands ord l r st).
Proof.
  intros Hl Hr.
  destruct ord; simpl; apply throws_within_bind; auto; intros;
    apply throws_within_bind; auto; intros; exact I.
Qed.

Lemma throws_within_load E id st : throws_within E (load id st).
Proof. unfold load. destruct (st !! id); exact I. Qed.

Lemma throws_within_store E id x st : throws_within E (store id x st).
Proof. unfold store. destruct (decide (id < length st)); exact I. Qed.

Lemma visit_throws_division_by_zero ord n st :
  throws_within (fun e => e = division_by_zero) (visit ord n st).
Proof.
  revert st.
  induction n as [x|v|op x IH|op l IHl r IHr|op x e IH]; simpl; intros st.
  - exact I.
  - apply throws_within_load.
  - destruct op; simpl; auto; try exact I.
    apply throws_within_bind; auto. intros; exact I.
  - destruct op; simpl; try exact I;
      try (apply throws_within_bind;
           [apply throws_within_operands; auto|intros; exact I]).
    apply throws_within_bind; auto. intros s st'.
    destruct (is_zero s); [reflexivity|].
    apply throws_within_bind; auto. intros; exact I.
  - apply throws_within_bind; auto. intros value st1.
    apply throws_within_bind; [apply throws_within_load|]. intros cur st2.
    apply throws_within_bind; [apply throws_within_store|]. intros; exact I.
Qed.

Lemma visit_division_free ord n :
  no_division n = true ->
  forall st, throws_within (fun _ => False) (visit ord n st).
Proof.
  induction n as [x|v|op x IH|op l IHl r IHr|op x e IH]; simpl;
    intros Hn st.
  - exact I.
  - apply throws_within_load.
  - destruct op; simpl; auto; try exact I.
    apply throws_within_bind; auto. intros; exact I.
  - destruct op; try discriminate; simpl; try exact I;
      apply andb_prop in Hn as [Hl Hr];
      (apply throws_within_bind;
       [apply throws_within_operands; auto|intros; exact I]).
  - apply throws_within_bind; auto. intros value st1.
    apply throws_within_bind; [apply throws_within_load|]. intros cur st2.
    apply throws_within_bind; [apply throws_within_store|]. intros; exact I.
Qed.

(** X1. Whatever the tree and the state, the only exception an evaluation
    throws is [std::logic_error] with the text ["division by zero"]. *)
Theorem only_division_by_zero_is_thrown ord n st e st' :
  evaluate ord n st = Throws e st' ->
  e = logic_error "division by zero".
Proof.
  unfold evaluate. intros H.
  pose proof (visit_throws_division_by_zero ord n st) as Hn.
  rewrite H in Hn. exact Hn.
Qed.

Lemma only_division_by_zero_is_thrown_witness :
  evaluate left_to_right (operator_plus b (operator_div a c)) [2; 3; 0]%float
  = Throws division_by_zero [2; 3; 0]%float
  /\ division_by_zero = logic_error "division by zero".
Proof.
  split; [reflexivity|].
  exact (only_division_by_zero_is_thrown left_to_right
           (operator_plus b (operator_div a c)) [2; 3; 0]%float
           division_by_zero [2; 3; 0]%float eq_refl).
Defined.

(** X2. A tree without a binary division never throws, on any state: the
    compound assignments, [/=] included, throw nothing of their own. *)
Theorem division_free_tree_never_throws ord n st :
  no_division n = true ->
  forall e st', evaluate ord n st <> Throws e st'.
Proof.
  unfold evaluate. intros Hn e st' H.
  pose proof (visit_division_free ord n Hn st) as Hfree.
  rewrite H in Hfree. exact Hfree.
Qed.

Lemma division_free_tree_never_throws_witness :
  no_division (operator_div_assign a (operator_minus c c)) = true
  /\ forall e st',
       evaluate left_to_right (operator_div_assign a (operator_minus c c))
         [2; 3; 0]%float
       <> Throws e st'.
Proof.
  split; [reflexivity|].
  exact (division_free_tree_never_throws left_to_right
           (operator_div_assign a (operator_minus c c)) [2; 3; 0]%float
           eq_refl).
Defined.

(** X3. A tree with handled tags, variables in range and no binary division
    always returns a value, and the state it leaves has as many slots as
    the one it started from. *)
Theorem division_free_well_formed_tree_returns ord n st :
  tags_handled n = true ->
  ids_below (length st) n = true ->
  no_division n = true ->
  exists x st', evaluate ord n st = Returns x st' /\ length st' = length st.
Proof.
  unfold evaluate. intros Ht Hi Hd.
  pose proof (visit_defined ord n Ht st Hi) as Hdef.
  pose proof (visit_division_free ord n Hd st) as Hfree.
  destruct (visit ord n st) as [x st'|e st'|u]; simpl in *; try done.
  by exists x, st'.
Qed.

Lemma division_free_well_formed_tree_returns_witness :
  let n := operator_plus_assign c (operator_minus b (operator_mul a c)) in
  tags_handled n = true
  /\ ids_below (length [2; 3; 1]%float) n = true
  /\ no_division n = true
  /\ exists x st',
       evaluate right_to_left n [2; 3; 1]%float = Returns x st'
       /\ length st' = length [2; 3; 1]%float.
Proof.
  intros n. split; [reflexivity|]. split; [reflexivity|].
  split; [reflexivity|].
  exact (division_free_well_formed_tree_returns right_to_left n
           [2; 3; 1]%float eq_refl eq_refl eq_refl).
Defined.

(** ** Which slots an evaluation touches *)

Lemma unchanged_outside_refl T st : unchanged_outside T st st.
Proof. by intros j _. Qed.

Lemma unchanged_outside_trans T st1 st2 st3 :
  unchanged_outside T st1 st2 -> unchanged_outside T st2 st3 ->
  unchanged_outside T st1 st3.
Proof. intros H12 H23 j Hj. rewrite (H23 j Hj). by apply H12. Qed.

Lemma after_store_outside T id x st :
  id ∈ T -> after (unchanged_outside T) st (store id x st).
Proof.
  intros Hid. unfold store. destruct (decide (id < length st)); simpl; auto.
  intros j Hj. apply list_lookup_insert_ne. by intros ->.
Qed.

Lemma visit_unchanged_outside ord T n :
  (forall j, j ∈ targets n -> j ∈ T) ->
  forall st, after (unchanged_outside T) st (visit ord n st).
Proof.
  pose proof (unchanged_outside_refl T) as Hrefl.
  pose proof (unchanged_outside_trans T) as Htrans.
  induction n as [x|v|op x IH|op l IHl r IHr|op x e IH]; simpl;
    intros HT st.
  - apply Hrefl.
  - by apply after_load.
  - destruct op; simpl; auto.
    apply after_bind; auto. intros; by apply after_ret.
  - assert (Hl : forall st', after (unchanged_outside T) st' (visit ord l st')).
    { apply IHl. intros j Hj. apply HT, elem_of_app. by left. }
    assert (Hr : forall st', after (unchanged_outside T) st' (visit ord r st')).
    { apply IHr. intros j Hj. apply HT, elem_of_app. by right. }
    destruct op; simpl; auto;
      try (apply after_bind; auto;
           [apply after_operands; auto|intros; by apply after_ret]).
    apply after_bind; auto. intros s st' _.
    destruct (is_zero s); [apply Hrefl|].
    apply after_bind; auto. intros; by apply after_ret.
  - apply after_bind; auto.
    { apply IH. intros j Hj. apply HT. by apply list_elem_of_further. }
    intros value st1 _. apply after_bind; auto; [by apply after_load|].
    intros cur st2 _. apply after_bind; auto.
    { apply after_store_outside, HT, list_elem_of_here. }
    intros; by apply after_ret.
Qed.

(** X4. An evaluation that returns or throws has changed no slot other
    than the targets of the [assign_t] nodes of the tree. *)
Theorem evaluation_writes_only_targets ord n st st' j :
  final_state (evaluate ord n st) = Some st' ->
  j ∉ targets n ->
  st' !! j = st !! j.
Proof.
  unfold evaluate. intros Hst' Hj.
  pose proof (visit_unchanged_outside ord (targets n) n (fun _ H => H) st)
    as Hframe.
  destruct (visit ord n st); simpl in *; simplify_eq; by apply Hframe.
Qed.

Lemma evaluation_writes_only_targets_witness :
  let n := operator_plus_assign c (operator_minus b (operator_mul a c)) in
  final_state (evaluate left_to_right n [2; 3; 1]%float)
  = Some [2; 3; 2]%float
  /\ (1 ∉ targets n)
  /\ ([2; 3; 2]%float : state_t) !! 1 = ([2; 3; 1]%float : state_t) !! 1.
Proof.
  intros n.
  assert (H1 : 1 ∉ targets n).
  { intros H. apply list_elem_of_singleton in H. discriminate. }
  split; [reflexivity|]. split; [exact H1|].
  exact (evaluation_writes_only_targets left_to_right n [2; 3; 1]%float
           [2; 3; 2]%float 1 eq_refl H1).
Defined.

Lemma alike_bind {A B} T (m : eval A) (k : A -> eval B) st st' :
  alike T (m st) (m st') ->
  (forall x s s', agree_on T s s' -> alike T (k x s) (k x s')) ->
  alike T (bind m k st) (bind m k st').
Proof.
  unfold bind. intros Hm Hk.
  destruct (m st) as [x s|e s|u], (m st') as [x' s'|e' s'|u'];
    simpl in *; try done.
  destruct Hm as [<- Hs]. by apply Hk.
Qed.

Lemma alike_operands {A B} T ord (l : eval A) (r : eval B) st st' :
  agree_on T st st' ->
  (forall s s', agree_on T s s' -> alike T (l s) (l s')) ->
  (forall s s', agree_on T s s' -> alike T (r s) (r s')) ->
  alike T (operands ord l r st) (operands ord l r st').
Proof.
  intros Hst Hl Hr.
  destruct ord; simpl; apply alike_bind; auto; intros;
    apply alike_bind; auto; intros; by split.
Qed.

Lemma alike_load T id st st' :
  id ∈ T -> agree_on T st st' -> alike T (load id st) (load id st').
Proof.
  intros Hid Hst. unfold load. rewrite <- (Hst id Hid).
  destruct (st !! id); by simpl.
Qed.

Lemma alike_store T id x cur st st' :
  id ∈ T -> st !! id = Some cur -> agree_on T st st' ->
  alike T (store id x st) (store id x st').
Proof.
  intros Hid Hcur Hst. unfold store.
  pose proof (lookup_lt_Some _ _ _ Hcur) as Hlt.
  rewrite (Hst id Hid) in Hcur.
  pose proof (lookup_lt_Some _ _ _ Hcur) as Hlt'.
  destruct (decide (id < length st)); [|lia].
  destruct (decide (id < length st')); [|lia].
  simpl. split; [done|]. intros j Hj.
  destruct (decide (id = j)) as [->|Hne].
  - by rewrite !list_lookup_insert_eq.
  - rewrite !list_lookup_insert_ne by done. by apply Hst.
Qed.

Lemma visit_alike ord T n :
  (forall j, j ∈ slots n -> j ∈ T) ->
  forall st st', agree_on T st st' ->
  alike T (visit ord n st) (visit ord n st').
Proof.
  induction n as [x|v|op x IH|op l IHl r IHr|op x e IH]; simpl;
    intros HT st st' Hst.
  - by split.
  - apply alike_load; [|done]. apply HT, list_elem_of_here.
  - destruct op; simpl; auto.
    apply alike_bind; auto. intros; by split.
  - assert (Hl : forall s s', agree_on T s s' ->
                   alike T (visit ord l s) (visit ord l s')).
    { apply IHl. intros j Hj. apply HT, elem_of_app. by left. }
    assert (Hr : forall s s', agree_on T s s' ->
                   alike T (visit ord r s) (visit ord r s')).
    { apply IHr. intros j Hj. apply HT, elem_of_app. by right. }
    destruct op; simpl; auto;
      try (apply alike_bind; [by apply alike_operands|intros; by split]).
    apply alike_bind; auto. intros s s1 s1' H1.
    destruct (is_zero s); [by split|].
    apply alike_bind; auto. intros; by split.
  - assert (Hx : m_id x ∈ T) by apply HT, list_elem_of_here.
    apply alike_bind.
    { apply IH; [|done]. intros j Hj. by apply HT, list_elem_of_further. }
    intros value s1 s1' H1. unfold bind at 1 3. unfold load.
    rewrite <- (H1 _ Hx).
    destruct (s1 !! m_id x) as [cur|] eqn:Hcur; [|done].
    apply alike_bind; [by eapply alike_store|].
    intros; by split.
Qed.

(** X5. The outcome of an evaluation depends on nothing but the slots the
    tree mentions: started from two states that hold the same values in
    those slots, it ends the same way in both (return, throw or no defined
    behaviour), with the same value or exception, and the two final states
    again hold the same values in those slots. *)
Theorem evaluation_reads_only_its_slots ord n st st' :
  agree_on (slots n) st st' ->
  alike (slots n) (evaluate ord n st) (evaluate ord n st').
Proof. intros H. by apply visit_alike. Qed.

Lemma evaluation_reads_only_its_slots_witness :
  agree_on (slots (operator_plus_assign a b)) [2; 3; 0]%float [2; 3]%float
  /\ alike (slots (operator_plus_assign a b))
       (evaluate left_to_right (operator_plus_assign a b) [2; 3; 0]%float)
       (evaluate left_to_right (operator_plus_assign a b) [2; 3]%float).
Proof.
  assert (H : agree_on (slots (operator_plus_assign a b))
                [2; 3; 0]%float [2; 3]%float).
  { intros j Hj. simpl in Hj.
    apply elem_of_cons in Hj as [->|Hj]; [reflexivity|].
    apply list_elem_of_singleton in Hj as ->. reflexivity. }
  split; [exact H|].
  exact (evaluation_reads_only_its_slots left_to_right
           (operator_plus_assign a b) [2; 3; 0]%float [2; 3]%float H).
Defined.

(** ** The order of the operands, when it does not matter *)

Lemma visit_pure_cases ord n st :
  no_assign n = true ->
  tags_handled n = true ->
  ids_below (length st) n = true ->
  (exists x, visit ord n st = Returns x st)
  \/ visit ord n st = Throws division_by_zero st.
Proof.
  intros Hp Ht Hi.
  pose proof (visit_no_assign ord n Hp st) as Hframe.
  pose proof (visit_defined ord n Ht st Hi) as Hdef.
  pose proof (visit_throws_division_by_zero ord n st) as Hexc.
  destruct (visit ord n st) as [x st'|e st'|u]; simpl in *; subst;
    [left; by eexists|by right|done].
Qed.

Lemma visit_order_irrelevant n :
  no_assign n = true ->
  tags_handled n = true ->
  forall st, ids_below (length st) n = true ->
  visit left_to_right n st = visit right_to_left n st.
Proof.
  induction n as [x|v|op x IH|op l IHl r IHr|op x e IH]; simpl;
    intros Hp Ht st Hi; try reflexivity.
  - apply andb_prop in Ht as [_ Ht].
    destruct op; simpl; try reflexivity; auto.
    unfold bind. by rewrite IH.
  - apply andb_prop in Hp as [Hpl Hpr].
    apply andb_prop in Ht as [Ht Htr]. apply andb_prop in Ht as [_ Htl].
    apply andb_prop in Hi as [Hil Hir].
    specialize (IHl Hpl Htl st Hil). specialize (IHr Hpr Htr st Hir).
    assert (Hops : operands left_to_right
                     (visit left_to_right l) (visit left_to_right r) st
                   = operands right_to_left
                       (visit right_to_left l) (visit right_to_left r) st).
    { simpl. unfold bind. rewrite <- IHr.
      destruct (visit_pure_cases left_to_right l st Hpl Htl Hil)
        as [[x Hx]|Hx],
        (visit_pure_cases left_to_right r st Hpr Htr Hir)
        as [[y Hy]|Hy];
        rewrite Hx, Hy; simpl; rewrite <- ?IHl, ?Hx, ?Hy; reflexivity. }
    simpl in Hops. unfold bind in Hops.
    destruct op; simpl; try reflexivity;
      try (unfold bind; by rewrite Hops).
    unfold bind. rewrite <- IHr.
    destruct (visit_pure_cases left_to_right r st Hpr Htr Hir)
      as [[y ->]| ->]; [|reflexivity].
    simpl. destruct (is_zero y); [reflexivity|]. by rewrite IHl.
  - discriminate.
Qed.

(** X6. For a tree without [assign_t] nodes, with handled tags and its
    variables in range, the order in which the compiler evaluates the
    operands of [+], [-] and [*] makes no difference: both orders give the
    same outcome. *)
Theorem operand_order_is_irrelevant_without_assign n st :
  no_assign n = true ->
  tags_handled n = true ->
  ids_below (length st) n = true ->
  evaluate left_to_right n st = evaluate right_to_left n st.
Proof. intros Hp Ht Hi. by apply visit_order_irrelevant. Qed.

Lemma operand_order_is_irrelevant_without_assign_witness :
  let n := operator_plus (operator_div a c) (operator_mul a b) in
  no_assign n = true
  /\ tags_handled n = true
  /\ ids_below (length [2; 3; 0]%float) n = true
  /\ evaluate left_to_right n [2; 3; 0]%float
     = evaluate right_to_left n [2; 3; 0]%float.
Proof.
  intros n. split; [reflexivity|]. split; [reflexivity|].
  split; [reflexivity|].
  exact (operand_order_is_irrelevant_without_assign n [2; 3; 0]%float
           eq_refl eq_refl eq_refl).
Defined.

(** ** More on assignment *)

(** X7. When an [assign_t] node returns a value, that value is what its
    target holds afterwards: reading the target in the state the
    assignment leaves returns it again and changes nothing. *)
Theorem assigned_value_is_read_back ord ord' op x e st value st' :
  evaluate ord (assign_t op x e) st = Returns value st' ->
  evaluate ord' (variable_node x) st' = Returns value st'.
Proof.
  unfold evaluate. simpl. unfold bind, load, store.
  destruct (visit ord e st) as [v st1| |]; try discriminate.
  destruct (st1 !! m_id x) as [cur|] eqn:Hcur; try discriminate.
  destruct (decide (m_id x < length st1)); try discriminate.
  unfold ret. intros [= <- <-].
  by rewrite list_lookup_insert_eq.
Qed.

Lemma assigned_value_is_read_back_witness :
  evaluate left_to_right (operator_shl_assign c (operator_minus b a))
    [2; 3; 0]%float
  = Returns 1%float [2; 3; 1]%float
  /\ evaluate right_to_left (variable_node c) [2; 3; 1]%float
     = Returns 1%float [2; 3; 1]%float.
Proof.
  split; [reflexivity|].
  exact (assigned_value_is_read_back left_to_right right_to_left
           operation_t.assign c (operator_minus b a) [2; 3; 0]%float
           1%float [2; 3; 1]%float eq_refl).
Defined.

(** X8. When the value holds no [assign_t] node and the target is in
    range, [x += e], [x -= e] and [x *= e] evaluate exactly as
    [x <<= x + e], [x <<= x - e] and [x <<= x * e] do, whatever the order
    of the operands. *)
Theorem compound_assign_is_assign_of_binary ord x e st :
  no_assign e = true ->
  m_id x < length st ->
  evaluate ord (operator_plus_assign x e) st
  = evaluate ord (operator_shl_assign x (operator_plus x e)) st
  /\ evaluate ord (operator_minus_assign x e) st
     = evaluate ord (operator_shl_assign x (operator_minus x e)) st
  /\ evaluate ord (operator_mul_assign x e) st
     = evaluate ord (operator_shl_assign x (operator_mul x e)) st.
Proof.
  intros Hp Hx. unfold evaluate.
  pose proof (visit_no_assign ord e Hp st) as Hframe.
  destruct (lookup_lt_is_Some_2 st (m_id x) Hx) as [cur Hcur].
  destruct (visit ord e st) as [v st1|ex st1|u] eqn:He; simpl in Hframe;
    try subst st1;
    repeat split; simpl; unfold bind, load, store;
    destruct ord; simpl; unfold bind, load;
    repeat (rewrite ?Hcur, ?He; simpl); try reflexivity;
    destruct (decide (m_id x < length st)); try lia; reflexivity.
Qed.

(** [c += b - a * c] of [test.cpp] against [c <<= c + (b - a * c)]. *)
Lemma compound_assign_is_assign_of_binary_witness :
  let e := operator_minus b (operator_mul a c) in
  no_assign e = true
  /\ m_id c < length [2; 3; 1]%float
  /\ evaluate left_to_right (operator_plus_assign c e) [2; 3; 1]%float
     = evaluate left_to_right (operator_shl_assign c (operator_plus c e))
         [2; 3; 1]%float.
Proof.
  intros e.
  assert (Hc : m_id c < length [2; 3; 1]%float) by (simpl; lia).
  split; [reflexivity|]. split; [exact Hc|].
  exact (proj1 (compound_assign_is_assign_of_binary left_to_right c e
                  [2; 3; 1]%float eq_refl Hc)).
Defined.

(** X9. [x /= e] evaluates exactly as [x <<= x / e] does on every state
    where [e] does not return a zero, with no condition on [e] or on the
    target: both evaluate [e] first and read the target afterwards. *)
Theorem div_assign_is_assign_of_division ord x e st :
  (forall value st1,
      evaluate ord e st = Returns value st1 -> is_zero value = false) ->
  evaluate ord (operator_div_assign x e) st
  = evaluate ord (operator_shl_assign x (operator_div x e)) st.
Proof.
  unfold evaluate. intros Hnz. simpl. unfold bind.
  destruct (visit ord e st) as [v st1|ex st1|u]; try reflexivity.
  rewrite (Hnz v st1 eq_refl). simpl. unfold bind, load.
  destruct (st1 !! m_id x) as [cur|] eqn:Hcur; [|reflexivity].
  simpl. by rewrite Hcur.
Qed.

Lemma div_assign_is_assign_of_division_witness :
  (forall value st1,
      evaluate left_to_right a [2; 3; 0]%float = Returns value st1 ->
      is_zero value = false)
  /\ evaluate left_to_right (operator_div_assign b a) [2; 3; 0]%float
     = evaluate left_to_right (operator_shl_assign b (operator_div b a))
         [2; 3; 0]%float.
Proof.
  assert (H : forall value st1,
             evaluate left_to_right a [2; 3; 0]%float = Returns value st1 ->
             is_zero value = false).
  { intros value st1 E. vm_compute in E. by simplify_eq. }
  split; [exact H|].
  exact (div_assign_is_assign_of_division left_to_right b a
           [2; 3; 0]%float H).
Defined.

(** X10. A variable whose slot lies outside the state has no value, and
    assigning to it never returns one: evaluation never grows the state. *)
Theorem out_of_range_slot_is_never_created ord x st :
  length st <= m_id x ->
  evaluate ord (variable_node x) st = Undefined index_out_of_range
  /\ forall op e value st',
       evaluate ord (assign_t op x e) st <> Returns value st'.
Proof.
  unfold evaluate. intros Hx. split.
  - simpl. unfold load. by rewrite (lookup_ge_None_2 st (m_id x) Hx).
  - intros op e value st'. simpl. unfold bind.
    pose proof (visit_same_length ord e st) as Hlen.
    destruct (visit ord e st) as [v st1| |]; try discriminate.
    simpl in Hlen. unfold same_length in Hlen. unfold load.
    rewrite (lookup_ge_None_2 st1 (m_id x)) by lia. discriminate.
Qed.

Lemma out_of_range_slot_is_never_created_witness :
  length ([] : state_t) <= m_id a
  /\ evaluate left_to_right (variable_node a) []
     = Undefined index_out_of_range
  /\ forall value st',
       evaluate left_to_right (operator_shl_assign a (constant_t 1%float)) []
       <> Returns value st'.
Proof.
  assert (H : length ([] : state_t) <= m_id a) by (simpl; lia).
  destruct (out_of_range_slot_is_never_created left_to_right a [] H)
    as [Hv Ha].
  split; [exact H|]. split; [exact Hv|].
  exact (Ha operation_t.assign (constant_t 1%float)).
Defined.

(** * Further properties of the symbol table *)

(** X11. [variable] only appends: every entry declared before keeps its
    name and its value, and the id handed out differs from every earlier
    one. *)
Theorem variable_keeps_earlier_entries t nm init id :
  id < length (m_names t) ->
  id < length (m_state t) ->
  name (snd (variable t nm init)) id = name t id
  /\ m_state (snd (variable t nm init)) !! id = m_state t !! id
  /\ m_id (fst (variable t nm init)) <> id.
Proof.
  intros Hn Hs. unfold name. simpl.
  split; [by apply lookup_app_l|]. split; [by apply lookup_app_l|lia].
Qed.

Lemma variable_keeps_earlier_entries_witness :
  let t := mk_symbol_table_t ["a"; "b"] [2; 3]%float in
  1 < length (m_names t)
  /\ 1 < length (m_state t)
  /\ name (snd (variable t "c" 0%float)) 1 = Some "b"
  /\ m_state (snd (variable t "c" 0%float)) !! 1 = Some 3%float
  /\ m_id (fst (variable t "c" 0%float)) <> 1.
Proof.
  intros t.
  assert (Hn : 1 < length (m_names t)) by (simpl; lia).
  assert (Hs : 1 < length (m_state t)) by (simpl; lia).
  split; [exact Hn|]. split; [exact Hs|].
  exact (variable_keeps_earlier_entries t "c" 0%float 1 Hn Hs).
Defined.

Lemma ids_below_slots bound n :
  ids_below bound n = true -> forall j, j ∈ slots n -> j < bound.
Proof.
  induction n as [x|v|op x IH|op l IHl r IHr|op x e IH]; simpl;
    intros Hn j Hj.
  - by apply elem_of_nil in Hj.
  - apply list_elem_of_singleton in Hj as ->.
    by apply bool_decide_eq_true in Hn.
  - auto.
  - apply andb_prop in Hn as [Hl Hr].
    apply elem_of_app in Hj as [Hj|Hj]; auto.
  - apply andb_prop in Hn as [Hx He]. apply bool_decide_eq_true in Hx.
    apply elem_of_cons in Hj as [->|Hj]; auto.
Qed.

(** X12. Declaring one more variable changes nothing for the trees over
    the variables declared so far: on the grown state such a tree ends the
    same way, with the same value or exception, and leaves the same values
    in its slots. *)
Theorem declaring_a_variable_keeps_outcomes ord t nm init n :
  ids_below (length (m_state t)) n = true ->
  alike (slots n)
    (evaluate ord n (m_state t))
    (evaluate ord n (m_state (snd (variable t nm init)))).
Proof.
  intros Hn. unfold evaluate. apply visit_alike; [auto|].
  intros j Hj. simpl. symmetry. apply lookup_app_l.
  by apply (ids_below_slots _ n Hn).
Qed.

Lemma declaring_a_variable_keeps_outcomes_witness :
  let t := mk_symbol_table_t ["a"; "b"] [2; 3]%float in
  ids_below (length (m_state t)) (operator_mul_assign a b) = true
  /\ alike (slots (operator_mul_assign a b))
       (evaluate left_to_right (operator_mul_assign a b) [2; 3]%float)
       (evaluate left_to_right (operator_mul_assign a b) [2; 3; 0]%float).
Proof.
  intros t. split; [reflexivity|].
  exact (declaring_a_variable_keeps_outcomes left_to_right t "c" 0%float
           (operator_mul_assign a b) eq_refl).
Defined.

Lemma variables_closed_form decls :
  forall t,
    variables t decls
    = (mk_variable_t <$> seq (length (m_state t)) (length decls),
       mk_symbol_table_t (m_names t ++ decls.*1) (m_state t ++ decls.*2)).
Proof.
  induction decls as [|[nm init] rest IH]; intros t; simpl.
  - rewrite !app_nil_r. by destruct t.
  - rewrite IH. simpl. rewrite length_app. simpl.
    rewrite <- !(assoc_L (++)). simpl.
    by replace (length (m_state t) + 1) with (S (length (m_state t))) by lia.
Qed.

(** X13. Declaring a list of variables on the empty table hands out the
    ids [0], [1], ... in order; the variable of the [i]-th declaration
    evaluates to its initial value on the table's state and prints as its
    name, whatever else was declared (names may repeat). *)
Theorem declared_variables_round_trip ord fmt decls i nm init :
  decls !! i = Some (nm, init) ->
  (variables empty_table decls).1 !! i = Some (mk_variable_t i)
  /\ evaluate ord (variable_node (mk_variable_t i))
       (m_state (variables empty_table decls).2)
     = Returns init (m_state (variables empty_table decls).2)
  /\ printer fmt (variables empty_table decls).2
       (variable_node (mk_variable_t i))
     = Some nm
  /\ length (m_names (variables empty_table decls).2) = length decls
  /\ length (m_state (variables empty_table decls).2) = length decls.
Proof.
  intros Hi. rewrite variables_closed_form. simpl.
  pose proof (lookup_lt_Some _ _ _ Hi) as Hlt.
  split.
  { rewrite list_lookup_fmap, lookup_seq_lt by done. reflexivity. }
  split.
  { unfold evaluate. simpl. unfold load.
    by rewrite list_lookup_fmap, Hi. }
  split.
  { unfold printer. simpl. unfold print_variable, name. simpl.
    by rewrite list_lookup_fmap, Hi. }
  by rewrite !length_fmap.
Qed.

Lemma declared_variables_round_trip_witness :
  let decls := [("a", 2%float); ("b", 3%float); ("c", 0%float)] in
  decls !! 1 = Some ("b", 3%float)
  /\ (variables empty_table decls).1 !! 1 = Some b
  /\ evaluate left_to_right (variable_node b)
       (m_state (variables empty_table decls).2)
     = Returns 3%float (m_state (variables empty_table decls).2)
  /\ printer format_whole (variables empty_table decls).2 (variable_node b)
     = Some "b".
Proof.
  intros decls. split; [reflexivity|].
  destruct (declared_variables_round_trip left_to_right format_whole decls
              1 "b" 3%float eq_refl) as (H1 & H2 & H3 & _).
  split; [exact H1|]. split; [exact H2|exact H3].
Defined.

(** * Further properties of the printer *)

(** X14. The visitor only appends to the stream: what it was given is a
    prefix of what it leaves, and the text appended is the rendering of the
    node, the same whatever the stream held before. *)
Theorem print_visit_only_appends fmt tab n out out' :
  print_visit fmt tab n out = Some out' ->
  exists text, printer fmt tab n = Some text /\ out' = out +:+ text.
Proof.
  rewrite print_visit_appends.
  destruct (printer fmt tab n) as [text|]; simpl; [|discriminate].
  intros [= <-]. by exists text.
Qed.

Lemma print_visit_only_appends_witness :
  print_visit format_whole sys (operator_plus a 2%float) "x = "
  = Some "x = a+2"
  /\ exists text,
       printer format_whole sys (operator_plus a 2%float) = Some text
       /\ "x = a+2" = "x = " +:+ text.
Proof.
  split; [reflexivity|].
  exact (print_visit_only_appends format_whole sys (operator_plus a 2%float)
           "x = " "x = a+2" eq_refl).
Defined.

Lemma print_visit_names_only fmt t t' n :
  m_names t = m_names t' ->
  forall out, print_visit fmt t n out = print_visit fmt t' n out.
Proof.
  intros Hnames.
  induction n as [x|v|op x IH|op l IHl r IHr|op x e IH]; simpl; intros out.
  - reflexivity.
  - unfold print_variable, name. by rewrite Hnames.
  - apply IH.
  - rewrite IHl. destruct (print_visit fmt t' l out); simpl; auto.
  - unfold print_variable, name. rewrite Hnames.
    destruct (m_names t' !! m_id x); simpl; auto.
Qed.

(** X15. The printer reads the names of the table and nothing else: two
    tables with the same names render every tree alike, so an evaluation,
    which only changes values, never changes how a tree prints. *)
Theorem printer_ignores_values fmt t t' n :
  m_names t = m_names t' ->
  printer fmt t n = printer fmt t' n.
Proof. intros H. unfold printer. by apply print_visit_names_only. Qed.

Lemma printer_ignores_values_witness :
  m_names sys = m_names (mk_symbol_table_t ["a"; "b"; "c"] [2; 3; 4]%float)
  /\ printer format_whole sys (operator_mul (operator_plus a b) c)
     = printer format_whole
         (mk_symbol_table_t ["a"; "b"; "c"] [2; 3; 4]%float)
         (operator_mul (operator_plus a b) c).
Proof.
  split; [reflexivity|].
  exact (printer_ignores_values format_whole sys
           (mk_symbol_table_t ["a"; "b"; "c"] [2; 3; 4]%float)
           (operator_mul (operator_plus a b) c) eq_refl).
Defined.

(** X16. The text does not record the nesting of the tree: a binary node
    under the right operand of another prints as the regrouped tree does,
    and a unary node over a binary one prints as the unary node over its
    left operand does.  So [a - (b - c)] and [(a - b) - c] both print as
    ["a-b-c"], and [-(a + b)] prints as [(-a) + b] does. *)
Theorem printer_forgets_nesting fmt tab :
  (forall op1 op2 x y z,
      printer fmt tab (binary_t op1 x (binary_t op2 y z))
      = printer fmt tab (binary_t op2 (binary_t op1 x y) z))
  /\ (forall op1 op2 x y,
        printer fmt tab (unary_t op1 (binary_t op2 x y))
        = printer fmt tab (binary_t op2 (unary_t op1 x) y)).
Proof.
  split.
  - intros op1 op2 x y z. rewrite !printer_binary.
    destruct (printer fmt tab x) as [sx|]; simpl; [|reflexivity].
    destruct (printer fmt tab y) as [sy|]; simpl; [|reflexivity].
    destruct (printer fmt tab z) as [sz|]; simpl; [|reflexivity].
    by rewrite !append_assoc.
  - intros op1 op2 x y.
    rewrite printer_unary, !printer_binary, printer_unary.
    destruct (printer fmt tab x) as [sx|]; simpl; [|reflexivity].
    destruct (printer fmt tab y) as [sy|]; simpl; [|reflexivity].
    by rewrite !append_assoc.
Qed.

(** * Arithmetic of the evaluator on doubles *)

Lemma float_opp_involutive (x : float) :
  PrimFloat.opp (PrimFloat.opp x) = x.
Proof.
  apply Prim2SF_inj. rewrite !opp_spec.
  destruct (Prim2SF x) as [s|s| |s m e]; simpl; try reflexivity;
    destruct s; reflexivity.
Qed.



Lemma SFadd_comm prec emax x y : SFadd prec emax x y = SFadd prec emax y x.
Proof.
  destruct x as [sx|sx| |sx mx ex], y as [sy|sy| |sy my ey]; simpl;
    try reflexivity; try (destruct sx, sy; reflexivity).
  rewrite (Z.min_comm ey ex). f_equal. lia.
Qed.

Lemma SFmul_comm prec emax x y : SFmul prec emax x y = SFmul prec emax y x.
Proof.
  destruct x as [sx|sx| |sx mx ex], y as [sy|sy| |sy my ey]; simpl;
    try reflexivity; try (destruct sx, sy; reflexivity).
  rewrite (Pos.mul_comm my mx), (Z.add_comm ey ex).
  destruct sx, sy; reflexivity.
Qed.

Lemma float_add_comm (x y : float) : PrimFloat.add x y = PrimFloat.add y x.
Proof. apply Prim2SF_inj. rewrite !add_spec. apply SFadd_comm. Qed.

Lemma float_mul_comm (x y : float) : PrimFloat.mul x y = PrimFloat.mul y x.
Proof. apply Prim2SF_inj. rewrite !mul_spec. apply SFmul_comm. Qed.

(** X17. Negating twice is evaluating once: [-(-x)] ends exactly as [x]
    does, on every state (the sign of a double flips back, zeros,
    infinities and NaN included). *)
Theorem double_negation_evaluates_as_operand ord x st :
  evaluate ord (operator_unary_minus (operator_unary_minus x)) st
  = evaluate ord x st.
Proof.
  unfold evaluate. simpl. unfold bind.
  destruct (visit ord x st) as [v st'| |]; try reflexivity.
  simpl. by rewrite float_opp_involutive.
Qed.


(** X19. For operands without [assign_t] nodes, with handled tags and
    variables in range, [+] and [*] commute: [x + y] ends exactly as
    [y + x] does, and [x * y] as [y * x]. *)
Theorem plus_and_mul_commute_without_assign ord x y st :
  no_assign x = true -> tags_handled x = true ->
  ids_below (length st) x = true ->
  no_assign y = true -> tags_handled y = true ->
  ids_below (length st) y = true ->
  evaluate ord (operator_plus x y) st = evaluate ord (operator_plus y x) st
  /\ evaluate ord (operator_mul x y) st = evaluate ord (operator_mul y x) st.
Proof.
  intros Hpx Htx Hix Hpy Hty Hiy. unfold evaluate.
  destruct (visit_pure_cases ord x st Hpx Htx Hix) as [[vx Hx]|Hx],
    (visit_pure_cases ord y st Hpy Hty Hiy) as [[vy Hy]|Hy];
    split; destruct ord; simpl; unfold bind;
    repeat (rewrite ?Hx, ?Hy; simpl);
    rewrite ?(float_add_comm vy vx), ?(float_mul_comm vy vx);
    reflexivity.
Qed.

Lemma plus_and_mul_commute_without_assign_witness :
  let x := operator_div a c in
  let y := operator_minus b a in
  no_assign x = true /\ tags_handled x = true
  /\ ids_below (length [2; 3; 0]%float) x = true
  /\ no_assign y = true /\ tags_handled y = true
  /\ ids_below (length [2; 3; 0]%float) y = true
  /\ evaluate left_to_right (operator_plus x y) [2; 3; 0]%float
     = evaluate left_to_right (operator_plus y x) [2; 3; 0]%float.
Proof.
  intros x y. repeat (split; [reflexivity|]).
  exact (proj1 (plus_and_mul_commute_without_assign left_to_right x y
                  [2; 3; 0]%float eq_refl eq_refl eq_refl
                  eq_refl eq_refl eq_refl)).
Defined.
